(** * Metronome (tempo-trainer): beat model and scheduler of
    [src/app/(index)/index.tsx].

    The source file holds two versions of the [IndexRoute] component:
    - version 1 (first half): BPM buttons calling [adjustBpm], a timer armed
      in [togglePlay] whose callback keeps the tick in a local [beat];
    - version 2 (second half): a BPM [Slider], compound subdivisions with
      [getSubdivisionPattern], and a [useEffect] that (re-)arms the timer.

    JavaScript numbers are modelled as canonical rationals [Qc]: every value
    the code computes here (small integers, divisions by 4, 8 and by bpm) is
    a rational, and [Qc] gives it one representative, so Leibniz equality is
    JavaScript's [===] on these values and sets of numbers can be [gset Qc]. *)

From Stdlib Require Import ZArith QArith Qcanon Qround Qminmax Lia Lqa String Ascii.
From stdpp Require Import base gmap sets list numbers countable.

Local Open Scope Z_scope.

(** ** Data model *)

Record TimeSignature := mkTS { top : Z; bottom : Z }.

Inductive Subdivision :=
| whole | half | quarter | eighth | sixteenth
| eighth_sixteenth_sixteenth   (* "eighth-sixteenth-sixteenth" *)
| sixteenth_sixteenth_eighth.  (* "sixteenth-sixteenth-eighth" *)

Global Instance Subdivision_eq_dec : EqDecision Subdivision.
Proof. solve_decision. Defined.

Definition TIME_SIGNATURES : list TimeSignature :=
  [mkTS 2 4; mkTS 3 4; mkTS 4 4; mkTS 5 4;
   mkTS 6 8; mkTS 7 8; mkTS 9 8; mkTS 12 8].

(** Version 1 offers the simple kinds only, version 2 all seven. *)
Definition SUBDIVISIONS_v1 : list Subdivision :=
  [whole; half; quarter; eighth; sixteenth].

Definition SUBDIVISIONS : list Subdivision :=
  [whole; half; quarter; eighth; sixteenth;
   eighth_sixteenth_sixteenth; sixteenth_sixteenth_eighth].

Definition getSubdivisionMultiplier (subdivision : Subdivision) : Z :=
  match subdivision with
  | whole => 1
  | half => 2
  | quarter => 4
  | eighth => 8
  | sixteenth => 16
  | eighth_sixteenth_sixteenth => 16
  | sixteenth_sixteenth_eighth => 16
  end.

(** ** JavaScript numbers *)

Abbreviation num := Qc.
Definition num_of_Z (n : Z) : num := Qc_of_Z n.

(** [Math.trunc]: toward zero. *)
Definition js_trunc (q : num) : Z :=
  if Qle_bool 0 (this q) then Qfloor (this q) else Qceiling (this q).

(** The [%] operator: [x - y * Math.trunc (x / y)] (truncated remainder,
    sign of the dividend).  A zero divisor gives [NaN] in JavaScript; the
    code never divides by zero here (the totals are positive). *)
Definition js_rem (x y : num) : num :=
  Qcminus x (Qcmult y (num_of_Z (js_trunc (Qcdiv x y)))).

(** An integer-valued number. *)
Definition is_int (q : num) : bool := (Zpos (Qden (this q)) =? 1).

(** ** Beat model (lines 46-49 and 542-545) *)

Definition subdivisionsPerBeat (ts : TimeSignature) (sub : Subdivision) : num :=
  Qcdiv (num_of_Z (getSubdivisionMultiplier sub)) (num_of_Z (bottom ts)).

(** [beatsPerMeasure * (subdivisionMultiplier / timeSignature.bottom)] *)
Definition totalSubdivisions (ts : TimeSignature) (sub : Subdivision) : num :=
  Qcmult (num_of_Z (top ts)) (subdivisionsPerBeat ts sub).

(** [60000 / bpm / (subdivisionMultiplier / timeSignature.bottom)] *)
Definition intervalMs (bpm : Z) (ts : TimeSignature) (sub : Subdivision) : num :=
  Qcdiv (Qcdiv (num_of_Z 60000) (num_of_Z bpm)) (subdivisionsPerBeat ts sub).

(** [getSubdivisionPattern] (version 2, lines 509-524); [totalBeats] is
    unused by the source too. *)
Definition getSubdivisionPattern (subdivision : Subdivision) (beatIndex : num)
    (totalBeats : num) : bool :=
  match subdivision with
  | eighth_sixteenth_sixteenth =>
      let posInGroup := js_rem beatIndex (num_of_Z 4) in
      bool_decide (posInGroup = num_of_Z 0) || bool_decide (posInGroup = num_of_Z 2)
      || bool_decide (posInGroup = num_of_Z 3)
  | sixteenth_sixteenth_eighth =>
      let posInGroup := js_rem beatIndex (num_of_Z 4) in
      bool_decide (posInGroup = num_of_Z 0) || bool_decide (posInGroup = num_of_Z 1)
      || bool_decide (posInGroup = num_of_Z 2)
  | _ => true
  end.

(** [adjustBpm] (version 1, lines 190-192):
    [Math.max(20, Math.min(300, prev + delta))]. *)
Definition adjustBpm (prev delta : Z) : Z := Z.max 20 (Z.min 300 (prev + delta)).

(** The tick advance of both timer callbacks: [(beat + 1) % totalSubdivisions]. *)
Definition nextBeat (prev total : num) : num := js_rem (Qcplus prev (num_of_Z 1)) total.

Fixpoint iter_nextBeat (k : nat) (total t : num) : num :=
  match k with
  | O => t
  | S k' => iter_nextBeat k' total (nextBeat t total)
  end.

(** ** Component state

    React state ([useState]) and the refs of the component, with the
    [Set] objects held in a heap so that a [Set] is a reference, as in
    JavaScript: [accents] is the reference held by the [accents] state, and
    [heap] maps each allocated [Set] object to its elements.  [intervalRef]
    is the armed [setInterval] timer, with what its callback closes over. *)

Abbreviation loc := positive.

Record State (Timer : Type) := mkState {
  bpm : Z;
  timeSignature : TimeSignature;
  subdivision : Subdivision;
  isPlaying : bool;
  currentBeat : num;
  accents : loc;
  heap : gmap loc (gset num);
  intervalRef : option Timer
}.
Arguments mkState {Timer} _ _ _ _ _ _ _ _.
Arguments bpm {Timer} _.
Arguments timeSignature {Timer} _.
Arguments subdivision {Timer} _.
Arguments isPlaying {Timer} _.
Arguments currentBeat {Timer} _.
Arguments accents {Timer} _.
Arguments heap {Timer} _.
Arguments intervalRef {Timer} _.

(** [new Set(xs)]: a fresh object. *)
Definition alloc_set (h : gmap loc (gset num)) (xs : gset num) : loc * gmap loc (gset num) :=
  let l := fresh (dom h) in (l, <[l := xs]> h).

(** The elements of the [Set] object at [l] ([has] answers from them). *)
Definition set_contents (h : gmap loc (gset num)) (l : loc) : gset num :=
  default ∅ (h !! l).

Definition accentSet {T} (s : State T) : gset num := set_contents (heap s) (accents s).

Section Setters.
Context {T : Type}.

Definition set_bpm (v : Z) (s : State T) : State T :=
  mkState v (timeSignature s) (subdivision s) (isPlaying s) (currentBeat s)
    (accents s) (heap s) (intervalRef s).
Definition set_isPlaying (b : bool) (s : State T) : State T :=
  mkState (bpm s) (timeSignature s) (subdivision s) b (currentBeat s)
    (accents s) (heap s) (intervalRef s).
Definition set_currentBeat (n : num) (s : State T) : State T :=
  mkState (bpm s) (timeSignature s) (subdivision s) (isPlaying s) n
    (accents s) (heap s) (intervalRef s).
Definition set_timeSignature (ts : TimeSignature) (s : State T) : State T :=
  mkState (bpm s) ts (subdivision s) (isPlaying s) (currentBeat s)
    (accents s) (heap s) (intervalRef s).
Definition set_subdivision (sub : Subdivision) (s : State T) : State T :=
  mkState (bpm s) (timeSignature s) sub (isPlaying s) (currentBeat s)
    (accents s) (heap s) (intervalRef s).
Definition set_accents (l : loc) (h : gmap loc (gset num)) (s : State T) : State T :=
  mkState (bpm s) (timeSignature s) (subdivision s) (isPlaying s) (currentBeat s)
    l h (intervalRef s).
Definition set_intervalRef (t : option T) (s : State T) : State T :=
  mkState (bpm s) (timeSignature s) (subdivision s) (isPlaying s) (currentBeat s)
    (accents s) (heap s) t.

(** Derived values of the render. *)
Definition s_totalSubdivisions (s : State T) : num :=
  totalSubdivisions (timeSignature s) (subdivision s).
Definition s_intervalMs (s : State T) : num :=
  intervalMs (bpm s) (timeSignature s) (subdivision s).

(** Initial state: [useState(120)], [{top: 4, bottom: 4}], ["quarter"],
    [false], [-1], [new Set([0])]; no timer. *)
Definition init : State T :=
  mkState 120 (mkTS 4 4) quarter false (num_of_Z (-1)) 1%positive
    {[1%positive := {[num_of_Z 0]}]} None.

(** [toggleAccent] (lines 180-188 and 661-669): copy the [Set], flip the
    membership of [beat] in the copy, store the copy. *)
Definition toggleAccent (beat : num) (s : State T) : State T :=
  let '(l, h) := alloc_set (heap s) (accentSet s) in
  let newAccents := set_contents h l in
  let h' := <[l := if bool_decide (beat ∈ newAccents)
                   then newAccents ∖ {[beat]} else newAccents ∪ {[beat]}]> h in
  set_accents l h' s.

(** Time-signature button (lines 318-325 and 867-874): [setTimeSignature(sig);
    setAccents(new Set([0])); setCurrentBeat(-1)]. *)
Definition selectTimeSignature (sig : TimeSignature) (s : State T) : State T :=
  let '(l, h) := alloc_set (heap s) {[num_of_Z 0]} in
  set_currentBeat (num_of_Z (-1)) (set_accents l h (set_timeSignature sig s)).

(** Subdivision button: the same with [setSubdivision(sub)]. *)
Definition selectSubdivision (sub : Subdivision) (s : State T) : State T :=
  let '(l, h) := alloc_set (heap s) {[num_of_Z 0]} in
  set_currentBeat (num_of_Z (-1)) (set_accents l h (set_subdivision sub s)).

End Setters.

(** User intents and timer fires. *)
Inductive Event :=
| TogglePlay
| AdjustBpm (delta : Z)            (* version 1: the -10/-1/+1/+10 buttons *)
| SetBpm (v : Z)                   (* version 2: Slider onValueChange *)
| SelectTimeSignature (sig : TimeSignature)
| SelectSubdivision (sub : Subdivision)
| ToggleAccent (beat : num)
| TimerFire.

(** ** Version 1: timer armed by [togglePlay] (lines 157-178) *)
Module V1.

(** The interval's callback closes over [totalSubdivisions], [accents] and
    the local [let beat]; [t_period] is the [intervalMs] it was armed with. *)
Record Timer := mkTimer {
  t_period : num;
  t_total : num;
  t_accents : loc;
  t_beat : num
}.

Abbreviation St := (State Timer).

Definition togglePlay (s : St) : St :=
  if isPlaying s then
    (* clearInterval; intervalRef.current = null; setCurrentBeat(-1);
       setIsPlaying(false) *)
    set_isPlaying false (set_currentBeat (num_of_Z (-1)) (set_intervalRef None s))
  else
    (* setCurrentBeat(0); playSound(...); let beat = 0;
       intervalRef.current = setInterval(..., intervalMs); setIsPlaying(true) *)
    set_isPlaying true
      (set_intervalRef
         (Some (mkTimer (s_intervalMs s) (s_totalSubdivisions s) (accents s) (num_of_Z 0)))
         (set_currentBeat (num_of_Z 0) s)).

(** The callback: [beat = (beat + 1) % totalSubdivisions; setCurrentBeat(beat);
    playSound(accents.has(beat))]. *)
Definition timerFire (s : St) : St :=
  match intervalRef s with
  | Some t =>
      let b := nextBeat (t_beat t) (t_total t) in
      set_currentBeat b (set_intervalRef (Some (mkTimer (t_period t) (t_total t) (t_accents t) b)) s)
  | None => s
  end.

Definition handle (e : Event) (s : St) : St :=
  match e with
  | TogglePlay => togglePlay s
  | AdjustBpm d => set_bpm (adjustBpm (bpm s) d) s   (* setBpm(prev => ...) *)
  | SetBpm _ => s                                    (* no slider in version 1 *)
  | SelectTimeSignature sig => selectTimeSignature sig s
  | SelectSubdivision sub => selectSubdivision sub s
  | ToggleAccent b => toggleAccent b s
  | TimerFire => timerFire s
  end.

Fixpoint run (es : list Event) (s : St) : St :=
  match es with
  | [] => s
  | e :: es' => run es' (handle e s)
  end.

(** The events the screen offers: the four BPM buttons, the listed time
    signatures and subdivisions, one accent button per index
    [0 .. totalSubdivisions) ([Array.from({length: totalSubdivisions})]). *)
Definition offered (s : St) (e : Event) : Prop :=
  match e with
  | TogglePlay | TimerFire => True
  | AdjustBpm d => d ∈ [-10; -1; 1; 10]
  | SetBpm _ => False
  | SelectTimeSignature sig => sig ∈ TIME_SIGNATURES
  | SelectSubdivision sub => sub ∈ SUBDIVISIONS_v1
  | ToggleAccent b => exists i, b = num_of_Z i /\ 0 <= i < js_trunc (s_totalSubdivisions s)
  end.

Inductive reachable : St -> Prop :=
| reachable_init : reachable init
| reachable_step s e : reachable s -> offered s e -> reachable (handle e s).

(** Stopped: not playing, tick [-1], no timer. *)
Definition stopped (s : St) : Prop :=
  isPlaying s = false /\ currentBeat s = num_of_Z (-1) /\ intervalRef s = None.

Definition two_states (s : St) : Prop :=
  stopped s \/ (isPlaying s = true /\ intervalRef s <> None).

(** The [accents] reference names an allocated [Set]. *)
Definition wf (s : St) : Prop := accents s ∈ dom (heap s).

(** What a timer fire plays ([Some accented]; [None]: nothing): the
    callback's [playSound(accents.has(beat))] on the [accents] [Set] the
    interval closed over when it was armed. *)
Definition fireClick (s : St) : option bool :=
  match intervalRef s with
  | Some t =>
      let b := nextBeat (t_beat t) (t_total t) in
      Some (bool_decide (b ∈ set_contents (heap s) (t_accents t)))
  | None => None
  end.

(** What pressing Start plays: [playSound(accents.has(0))]. *)
Definition startClick (s : St) : option bool :=
  if isPlaying s then None else Some (bool_decide (num_of_Z 0 ∈ accentSet s)).

(** The beat buttons (lines 415-421):
    [Array.from({length: totalSubdivisions}, (_, i) => ...)], button [i]
    highlighted when [currentBeat === i]. *)
Definition buttons (s : St) : list Z := seqZ 0 (js_trunc (s_totalSubdivisions s)).

Definition buttonActive (s : St) (i : Z) : bool := bool_decide (currentBeat s = num_of_Z i).

(** The [Set] the timer closed over is an allocated object. *)
Definition timer_wf (s : St) : Prop :=
  forall t, intervalRef s = Some t -> t_accents t ∈ dom (heap s).

(** The timer's count stays in the measure it was armed with; the
    displayed tick is that count or [-1]. *)
Definition beat_inv (s : St) : Prop :=
  forall t, intervalRef s = Some t ->
    (currentBeat s = t_beat t \/ currentBeat s = num_of_Z (-1)) /\
    Qcle (num_of_Z 0) (t_beat t) /\ Qclt (t_beat t) (t_total t).

End V1.

(** ** Version 2: timer (re-)armed by an effect (lines 554-578, 624-641) *)
Module V2.

(** The interval's callback closes over [totalSubdivisions], [subdivision]
    and [accents]; it reads the tick through the state updater. *)
Record Timer := mkTimer {
  t_period : num;
  t_total : num;
  t_subdivision : Subdivision;
  t_accents : loc
}.

Abbreviation St := (State Timer).

Definition togglePlay (s : St) : St :=
  if isPlaying s then
    set_isPlaying false (set_currentBeat (num_of_Z (-1)) s)
  else
    (* setCurrentBeat(0); if (getSubdivisionPattern(...)) playSound(...);
       setIsPlaying(true) *)
    set_isPlaying true (set_currentBeat (num_of_Z 0) s).

(** The callback: [setCurrentBeat(prev => (prev + 1) % totalSubdivisions)]. *)
Definition timerFire (s : St) : St :=
  match intervalRef s with
  | Some t => set_currentBeat (nextBeat (currentBeat s) (t_total t)) s
  | None => s
  end.

Definition handler (e : Event) (s : St) : St :=
  match e with
  | TogglePlay => togglePlay s
  | AdjustBpm _ => s                                 (* no buttons in version 2 *)
  | SetBpm v => set_bpm v s                          (* onValueChange={setBpm} *)
  | SelectTimeSignature sig => selectTimeSignature sig s
  | SelectSubdivision sub => selectSubdivision sub s
  | ToggleAccent b => toggleAccent b s
  | TimerFire => timerFire s
  end.

(** The effect's dependency list
    [[intervalMs, isPlaying, totalSubdivisions, subdivision, accents]]. *)
Definition deps (s : St) : num * bool * num * Subdivision * loc :=
  (s_intervalMs s, isPlaying s, s_totalSubdivisions s, subdivision s, accents s).

Definition arm (s : St) : Timer :=
  mkTimer (s_intervalMs s) (s_totalSubdivisions s) (subdivision s) (accents s).

(** After a render whose dependencies changed, the cleanup clears the old
    interval and the effect arms a new one when playing. *)
Definition runEffect (old new : St) : St :=
  if bool_decide (deps old = deps new) then new
  else set_intervalRef (if isPlaying new then Some (arm new) else None) new.

Definition handle (e : Event) (s : St) : St := runEffect s (handler e s).

Fixpoint run (es : list Event) (s : St) : St :=
  match es with
  | [] => s
  | e :: es' => run es' (handle e s)
  end.

(** The events the screen offers: Slider values in [20, 300] by steps of
    1, the listed time signatures and subdivisions, and one accent button
    per beat, toggling index [i * subdivisionsPerBeat]. *)
Definition offered (s : St) (e : Event) : Prop :=
  match e with
  | TogglePlay | TimerFire => True
  | AdjustBpm _ => False
  | SetBpm v => 20 <= v <= 300
  | SelectTimeSignature sig => sig ∈ TIME_SIGNATURES
  | SelectSubdivision sub => sub ∈ SUBDIVISIONS
  | ToggleAccent b => exists i, 0 <= i < top (timeSignature s) /\
      b = Qcmult (num_of_Z i) (subdivisionsPerBeat (timeSignature s) (subdivision s))
  end.

Inductive reachable : St -> Prop :=
| reachable_init : reachable init
| reachable_step s e : reachable s -> offered s e -> reachable (handle e s).

Definition stopped (s : St) : Prop :=
  isPlaying s = false /\ currentBeat s = num_of_Z (-1) /\ intervalRef s = None.

Definition two_states (s : St) : Prop :=
  stopped s \/ (isPlaying s = true /\ intervalRef s <> None).

Definition wf (s : St) : Prop := accents s ∈ dom (heap s).

(** The timer of a running component is the one armed from the current
    dependencies. *)
Definition armed (s : St) : Prop :=
  (isPlaying s = false /\ currentBeat s = num_of_Z (-1) /\ intervalRef s = None) \/
  (isPlaying s = true /\ intervalRef s = Some (arm s)).

(** What a timer fire plays: inside the updater,
    [if (getSubdivisionPattern(subdivision, nextBeat, ...)) playSound(accents.has(nextBeat))],
    with the [subdivision] and [accents] the interval closed over. *)
Definition fireClick (s : St) : option bool :=
  match intervalRef s with
  | Some t =>
      let b := nextBeat (currentBeat s) (t_total t) in
      if getSubdivisionPattern (t_subdivision t) b (t_total t)
      then Some (bool_decide (b ∈ set_contents (heap s) (t_accents t)))
      else None
  | None => None
  end.

(** What pressing Start plays:
    [if (getSubdivisionPattern(subdivision, 0, ...)) playSound(accents.has(0))]. *)
Definition startClick (s : St) : option bool :=
  if isPlaying s then None
  else if getSubdivisionPattern (subdivision s) (num_of_Z 0) (s_totalSubdivisions s)
  then Some (bool_decide (num_of_Z 0 ∈ accentSet s))
  else None.

(** The beat indicators (lines 757-790): one per beat,
    [Array.from({length: beatsPerMeasure}, (_, i) => ...)]. *)
Definition s_subdivisionsPerBeat (s : St) : num :=
  subdivisionsPerBeat (timeSignature s) (subdivision s).

Definition beats (s : St) : list Z := seqZ 0 (top (timeSignature s)).

(** [Math.floor(currentBeat / subdivisionsPerBeat) === i && currentBeat >= 0] *)
Definition beatActive (s : St) (i : Z) : bool :=
  bool_decide (Qfloor (this (Qcdiv (currentBeat s) (s_subdivisionsPerBeat s))) = i) &&
  bool_decide (Qcle (num_of_Z 0) (currentBeat s)).

(** [i * subdivisionsPerBeat] *)
Definition beatStartIndex (s : St) (i : Z) : num :=
  Qcmult (num_of_Z i) (s_subdivisionsPerBeat s).

(** [Array.from({length: subdivisionsPerBeat}, (_, j) =>
      accents.has(beatStartIndex + j)).some(Boolean)]; the length is
    truncated toward zero as [Array.from] does. *)
Definition beatAccented (s : St) (i : Z) : bool :=
  existsb (fun j => bool_decide (Qcplus (beatStartIndex s i) (num_of_Z j) ∈ accentSet s))
    (seqZ 0 (js_trunc (s_subdivisionsPerBeat s))).

(** The tick is [-1] or a position inside the measure. *)
Definition tick_in_measure (s : St) : Prop :=
  currentBeat s = num_of_Z (-1) \/
  (Qcle (num_of_Z 0) (currentBeat s) /\ Qclt (currentBeat s) (s_totalSubdivisions s)).

End V2.

(** What [toggleAccent b] may change from [s] to [s']: the [accents]
    reference moves to a new [Set] object, the old object is left as it
    was, only [b]'s membership flips, and the other state is untouched. *)
Definition toggle_frame {T} (s s' : State T) (b : num) : Prop :=
  accents s' <> accents s /\
  heap s' !! accents s = heap s !! accents s /\
  (b ∈ accentSet s' <-> b ∉ accentSet s) /\
  (forall j, j <> b -> (j ∈ accentSet s' <-> j ∈ accentSet s)) /\
  bpm s' = bpm s /\ timeSignature s' = timeSignature s /\
  subdivision s' = subdivision s /\ currentBeat s' = currentBeat s /\
  isPlaying s' = isPlaying s.

(** ** WAV encoding of the click sounds ([createWavBlob], version 1,
    lines 110-147)

    The [ArrayBuffer] is a list of byte values.  [createClickSound] computes
    its samples with [Math.sin] and [Math.exp] in floating point; the
    samples are taken here as given rationals, and their conversion to
    16-bit integers is modelled exactly on those values. *)

(** [DataView] little-endian stores write the low [k] bytes of the integer,
    least significant first: for [setUint16]/[setUint32] the bytes of
    [ToUint16]/[ToUint32] of the value, for [setInt16] the two's complement
    of [ToInt16], which are the same bytes. *)
Fixpoint le_bytes (k : nat) (v : Z) : list Z :=
  match k with
  | O => []
  | S k' => v mod 256 :: le_bytes k' (v / 256)
  end.

(** [getUint16]/[getUint32] with [littleEndian = true]. *)
Fixpoint le_value (bs : list Z) : Z :=
  match bs with
  | [] => 0
  | b :: bs' => b + 256 * le_value bs'
  end.

Definition getUint (k : nat) (buf : list Z) (off : nat) : Z := le_value (take k (drop off buf)).

(** [getInt16(offset, true)]. *)
Definition getInt16 (buf : list Z) (off : nat) : Z :=
  let u := getUint 2 buf off in if 32768 <=? u then u - 65536 else u.

(** Byte stores into the buffer. *)
Fixpoint write_bytes (buf : list Z) (off : nat) (bs : list Z) : list Z :=
  match bs with
  | [] => buf
  | b :: bs' => write_bytes (<[off := b]> buf) (S off) bs'
  end.

Definition setUint16 (buf : list Z) (off : nat) (v : Z) : list Z := write_bytes buf off (le_bytes 2 v).
Definition setUint32 (buf : list Z) (off : nat) (v : Z) : list Z := write_bytes buf off (le_bytes 4 v).

(** [writeString]: [view.setUint8(offset + i, string.charCodeAt(i))]. *)
Definition writeString (buf : list Z) (off : nat) (str : string) : list Z :=
  write_bytes buf off (map (fun c => Z.of_nat (nat_of_ascii c)) (list_ascii_of_string str)).

(** [Math.trunc] on a rational. *)
Definition Qtrunc (q : Q) : Z := if Qle_bool 0 q then Qfloor q else Qceiling q.

(** The number handed to [setInt16] for sample [x]:
    [s = Math.max(-1, Math.min(1, x)); s < 0 ? s * 0x8000 : s * 0x7FFF]. *)
Definition sample_value (x : Q) : Q :=
  let s := Qmax (-1) (Qmin 1 x) in
  if Qlt_le_dec s 0 then s * 32768 else s * 32767.

(** [setInt16]: [ToInt16] truncates toward zero, then two's complement. *)
Definition setInt16 (buf : list Z) (off : nat) (v : Q) : list Z :=
  write_bytes buf off (le_bytes 2 (Qtrunc v)).

(** The sample loop, [offset] starting at 44 and moving by 2. *)
Fixpoint write_samples (buf : list Z) (off : nat) (samples : list Q) : list Z :=
  match samples with
  | [] => buf
  | x :: xs => write_samples (setInt16 buf off (sample_value x)) (off + 2) xs
  end.

(** The bytes of the [Blob] [createWavBlob(samples, sampleRate)] returns. *)
Definition createWavBytes (samples : list Q) (sampleRate : Z) : list Z :=
  let n := Z.of_nat (length samples) in
  let buf := replicate (44 + length samples * 2) 0 in
  let buf := writeString buf 0 "RIFF" in
  let buf := setUint32 buf 4 (36 + n * 2) in
  let buf := writeString buf 8 "WAVE" in
  let buf := writeString buf 12 "fmt " in
  let buf := setUint32 buf 16 16 in
  let buf := setUint16 buf 20 1 in
  let buf := setUint16 buf 22 1 in
  let buf := setUint32 buf 24 sampleRate in
  let buf := setUint32 buf 28 (sampleRate * 2) in
  let buf := setUint16 buf 32 2 in
  let buf := setUint16 buf 34 16 in
  let buf := writeString buf 36 "data" in
  let buf := setUint32 buf 40 (n * 2) in
  write_samples buf 44 samples.

(** The 44 header bytes, field by field. *)
Definition wav_header (n : nat) (sampleRate : Z) : list Z :=
  [82; 73; 70; 70] ++ le_bytes 4 (36 + Z.of_nat n * 2) ++
  [87; 65; 86; 69] ++ [102; 109; 116; 32] ++
  le_bytes 4 16 ++ le_bytes 2 1 ++ le_bytes 2 1 ++
  le_bytes 4 sampleRate ++ le_bytes 4 (sampleRate * 2) ++
  le_bytes 2 2 ++ le_bytes 2 16 ++
  [100; 97; 116; 97] ++ le_bytes 4 (Z.of_nat n * 2).

Example total_4_4_quarter : totalSubdivisions (mkTS 4 4) quarter = num_of_Z 4.
Proof. apply Qc_is_canon. vm_compute. reflexivity. Qed.

Example total_2_4_whole : is_int (totalSubdivisions (mkTS 2 4) whole) = false.
Proof. vm_compute. reflexivity. Qed.

Example rem_neg : js_rem (num_of_Z (-1)) (num_of_Z 4) = num_of_Z (-1).
Proof. apply Qc_is_canon. vm_compute. reflexivity. Qed.

Example pattern_ess_5 : getSubdivisionPattern eighth_sixteenth_sixteenth (num_of_Z 5) (num_of_Z 16) = false.
Proof. vm_compute. reflexivity. Qed.

(** ** Arithmetic of the JavaScript operators on integer values *)

Lemma num_of_Z_inj a b : num_of_Z a = num_of_Z b -> a = b.
Proof. intros H. apply (f_equal this) in H. simpl in H. injection H. lia. Qed.

Lemma bool_decide_num_of_Z a b : bool_decide (num_of_Z a = num_of_Z b) = (a =? b).
Proof.
  case_bool_decide as H.
  - apply num_of_Z_inj in H. subst. symmetry. apply Z.eqb_refl.
  - destruct (Z.eqb_spec a b); [subst; congruence | reflexivity].
Qed.

Lemma js_trunc_div_nonneg a n : 0 <= a -> 0 < n ->
  js_trunc (Qcdiv (num_of_Z a) (num_of_Z n)) = a / n.
Proof.
  intros Ha Hn. destruct n as [|p|p]; try lia.
  assert (Heq : this (Qcdiv (num_of_Z a) (num_of_Z (Zpos p))) == (a # p)%Q).
  { simpl this. rewrite !Qred_correct. unfold Qmult, Qinv, inject_Z. simpl.
    rewrite Z.mul_1_r. reflexivity. }
  unfold js_trunc. rewrite (Qfloor_comp _ _ Heq).
  assert (Hle : Qle_bool 0 (this (Qcdiv (num_of_Z a) (num_of_Z (Zpos p)))) = true).
  { apply Qle_bool_iff. rewrite Heq. unfold Qle. simpl. lia. }
  rewrite Hle. reflexivity.
Qed.

(** On a non-negative dividend and a positive divisor, [%] is [Z.modulo]. *)
Lemma js_rem_of_Z a n : 0 <= a -> 0 < n ->
  js_rem (num_of_Z a) (num_of_Z n) = num_of_Z (a mod n).
Proof.
  intros Ha Hn. unfold js_rem. rewrite js_trunc_div_nonneg by lia.
  apply Qc_is_canon. simpl this. rewrite !Qred_correct.
  unfold Qminus. rewrite <- inject_Z_mult, <- inject_Z_opp, <- inject_Z_plus.
  rewrite (Z.mod_eq a n) by lia. reflexivity.
Qed.

Lemma Qcplus_of_Z a b : Qcplus (num_of_Z a) (num_of_Z b) = num_of_Z (a + b).
Proof.
  apply Qc_is_canon. simpl this. rewrite Qred_correct, inject_Z_plus. reflexivity.
Qed.

Lemma nextBeat_of_Z t n : -1 <= t -> 0 < n ->
  nextBeat (num_of_Z t) (num_of_Z n) = num_of_Z ((t + 1) mod n).
Proof.
  intros Ht Hn. unfold nextBeat. rewrite Qcplus_of_Z. apply js_rem_of_Z; lia.
Qed.

Lemma iter_nextBeat_of_Z n k t : 0 < n -> 0 <= t < n ->
  iter_nextBeat k (num_of_Z n) (num_of_Z t) = num_of_Z ((t + Z.of_nat k) mod n).
Proof.
  intros Hn. revert t. induction k as [|k IH]; intros t Ht; simpl.
  - rewrite Z.add_0_r, Z.mod_small by lia. reflexivity.
  - rewrite nextBeat_of_Z by lia.
    pose proof (Z.mod_pos_bound (t + 1) n Hn).
    rewrite IH by lia. f_equal.
    rewrite Z.add_mod_idemp_l by lia. f_equal. lia.
Qed.

(** ** C1: totalSubdivisions over the offered configurations *)

(** C1 (counterexample): the claim that [totalSubdivisions] is a positive
    integer for every offered time signature and subdivision fails at 2/4
    with a whole-note subdivision, where it is 1/2. *)
Lemma C1_totalSubdivisions_not_integer :
  ~ (forall ts sub, ts ∈ TIME_SIGNATURES -> sub ∈ SUBDIVISIONS ->
       exists k, 0 < k /\ totalSubdivisions ts sub = num_of_Z k).
Proof.
  intros H.
  destruct (H (mkTS 2 4) whole) as [k [_ Hk]].
  - left.
  - left.
  - pose proof total_2_4_whole as Hw. rewrite Hk in Hw.
    vm_compute in Hw. discriminate.
Qed.

(** C1 (amended): for every offered time signature and every subdivision
    kind, [totalSubdivisions = top * (multiplier / bottom)] is a positive
    rational number, and it is an integer exactly when [bottom] divides
    [top * multiplier]. *)
Theorem C1_totalSubdivisions_positive_rational ts sub :
  ts ∈ TIME_SIGNATURES ->
  Qclt (num_of_Z 0) (totalSubdivisions ts sub) /\
  is_int (totalSubdivisions ts sub)
  = (Z.rem (top ts * getSubdivisionMultiplier sub) (bottom ts) =? 0).
Proof.
  intros Hts. unfold TIME_SIGNATURES in Hts.
  repeat (apply elem_of_cons in Hts as [-> | Hts]);
    [.. | apply elem_of_nil in Hts; contradiction];
    destruct sub; split; vm_compute; reflexivity.
Qed.

(** Witness: 7/8 with quarter-note subdivisions gives 7/2. *)
Lemma C1_totalSubdivisions_positive_rational_witness :
  mkTS 7 8 ∈ TIME_SIGNATURES /\
  Qclt (num_of_Z 0) (totalSubdivisions (mkTS 7 8) quarter) /\
  is_int (totalSubdivisions (mkTS 7 8) quarter)
  = (Z.rem (top (mkTS 7 8) * getSubdivisionMultiplier quarter) (bottom (mkTS 7 8)) =? 0).
Proof.
  assert (H : mkTS 7 8 ∈ TIME_SIGNATURES) by (vm_compute; repeat constructor).
  split; [exact H | apply (C1_totalSubdivisions_positive_rational (mkTS 7 8) quarter H)].
Defined.

(** ** C2: the tick interval *)

(** C2: [intervalMs = 60000 / bpm / (multiplier / bottom)] is 500 ms at
    120 bpm in 4/4 with quarter notes, and 500 ms at 60 bpm in 4/4 with
    eighth notes. *)
Theorem C2_intervalMs_examples :
  intervalMs 120 (mkTS 4 4) quarter = num_of_Z 500 /\
  intervalMs 60 (mkTS 4 4) eighth = num_of_Z 500.
Proof. split; apply Qc_is_canon; vm_compute; reflexivity. Qed.

(** ** C3: audibility of a tick *)

(** C3: at every tick index [i >= 0], the simple kinds sound; the
    eighth-sixteenth-sixteenth pattern sounds exactly when [i mod 4] is 0, 2
    or 3; the sixteenth-sixteenth-eighth pattern exactly when it is 0, 1
    or 2. *)
Theorem C3_getSubdivisionPattern_mask sub i total :
  0 <= i ->
  getSubdivisionPattern sub (num_of_Z i) total =
  match sub with
  | eighth_sixteenth_sixteenth => (i mod 4 =? 0) || (i mod 4 =? 2) || (i mod 4 =? 3)
  | sixteenth_sixteenth_eighth => (i mod 4 =? 0) || (i mod 4 =? 1) || (i mod 4 =? 2)
  | _ => true
  end.
Proof.
  intros Hi. destruct sub; try reflexivity; simpl;
    rewrite js_rem_of_Z by lia; rewrite !bool_decide_num_of_Z; reflexivity.
Qed.

Lemma C3_getSubdivisionPattern_mask_witness :
  0 <= 5 /\
  getSubdivisionPattern eighth_sixteenth_sixteenth (num_of_Z 5) (num_of_Z 16) = false.
Proof.
  split; [lia |].
  rewrite (C3_getSubdivisionPattern_mask eighth_sixteenth_sixteenth 5 (num_of_Z 16)) by lia.
  reflexivity.
Defined.

(** ** The handlers shared by both versions *)

Section SharedHandlers.
Context {T : Type}.
Implicit Types s : State T.

Lemma set_contents_insert_eq h l xs : set_contents (<[l := xs]> h) l = xs.
Proof. unfold set_contents. rewrite lookup_insert_eq. reflexivity. Qed.

Lemma accentSet_toggleAccent s b :
  accentSet (toggleAccent b s) =
  if bool_decide (b ∈ accentSet s) then accentSet s ∖ {[b]} else accentSet s ∪ {[b]}.
Proof.
  unfold toggleAccent, alloc_set. unfold accentSet at 1.
  cbn [accents heap set_accents].
  rewrite !set_contents_insert_eq. reflexivity.
Qed.

Lemma toggleAccent_frame s b :
  bpm (toggleAccent b s) = bpm s /\
  timeSignature (toggleAccent b s) = timeSignature s /\
  subdivision (toggleAccent b s) = subdivision s /\
  isPlaying (toggleAccent b s) = isPlaying s /\
  currentBeat (toggleAccent b s) = currentBeat s /\
  intervalRef (toggleAccent b s) = intervalRef s.
Proof. repeat split. Qed.

Lemma toggleAccent_fresh s b :
  accents s ∈ dom (heap s) ->
  accents (toggleAccent b s) <> accents s /\
  heap (toggleAccent b s) !! accents s = heap s !! accents s.
Proof.
  intros Hdom. unfold toggleAccent, alloc_set. cbn [accents heap set_accents].
  pose proof (is_fresh (dom (heap s))) as Hf.
  assert (Hne : fresh (dom (heap s)) <> accents s) by (intros Heq; rewrite Heq in Hf; contradiction).
  split; [exact Hne |].
  rewrite !lookup_insert_ne by congruence. reflexivity.
Qed.

Lemma toggleAccent_dom s b : accents (toggleAccent b s) ∈ dom (heap (toggleAccent b s)).
Proof.
  unfold toggleAccent, alloc_set. cbn [accents heap set_accents].
  eapply elem_of_dom_2. apply lookup_insert_eq.
Qed.

Lemma toggle_toggle (X : gset num) b :
  (let Y := if bool_decide (b ∈ X) then X ∖ {[b]} else X ∪ {[b]} in
   if bool_decide (b ∈ Y) then Y ∖ {[b]} else Y ∪ {[b]}) = X.
Proof.
  simpl. destruct (decide (b ∈ X)) as [Hb | Hb].
  - rewrite (bool_decide_true (b ∈ X)) by done.
    rewrite bool_decide_false by set_solver.
    apply leibniz_equiv. intros x. destruct (decide (x = b)); set_solver.
  - rewrite (bool_decide_false (b ∈ X)) by done.
    rewrite bool_decide_true by set_solver.
    apply leibniz_equiv. intros x. destruct (decide (x = b)); set_solver.
Qed.

Lemma selectTimeSignature_reset s sig :
  currentBeat (selectTimeSignature sig s) = num_of_Z (-1) /\
  accentSet (selectTimeSignature sig s) = {[num_of_Z 0]} /\
  accents (selectTimeSignature sig s) ∈ dom (heap (selectTimeSignature sig s)) /\
  isPlaying (selectTimeSignature sig s) = isPlaying s /\
  intervalRef (selectTimeSignature sig s) = intervalRef s.
Proof.
  unfold selectTimeSignature, alloc_set, accentSet. cbn.
  rewrite set_contents_insert_eq. repeat split.
  eapply elem_of_dom_2. apply lookup_insert_eq.
Qed.

Lemma selectSubdivision_reset s sub :
  currentBeat (selectSubdivision sub s) = num_of_Z (-1) /\
  accentSet (selectSubdivision sub s) = {[num_of_Z 0]} /\
  accents (selectSubdivision sub s) ∈ dom (heap (selectSubdivision sub s)) /\
  isPlaying (selectSubdivision sub s) = isPlaying s /\
  intervalRef (selectSubdivision sub s) = intervalRef s.
Proof.
  unfold selectSubdivision, alloc_set, accentSet. cbn.
  rewrite set_contents_insert_eq. repeat split.
  eapply elem_of_dom_2. apply lookup_insert_eq.
Qed.

Lemma init_accents : accentSet (@init T) = {[num_of_Z 0]}.
Proof. reflexivity. Qed.

Lemma init_dom : accents (@init T) ∈ dom (heap (@init T)).
Proof. apply elem_of_dom_2 with (x := {[num_of_Z 0]}). reflexivity. Qed.

End SharedHandlers.

(** ** Version 1: invariants of the reachable states *)

Module V1Facts.
Import V1.

Lemma handle_inv e s : two_states s -> wf s -> two_states (handle e s) /\ wf (handle e s).
Proof.
  unfold two_states, stopped, wf. intros Hts Hwf.
  destruct e as [| d | v | sig | sub | b |]; unfold handle; cbv beta iota.
  - unfold togglePlay. destruct (isPlaying s) eqn:Hp; simpl.
    + split; [left; repeat split | exact Hwf].
    + split; [right; split; [reflexivity | discriminate] | exact Hwf].
  - split; [exact Hts | exact Hwf].
  - split; [exact Hts | exact Hwf].
  - destruct (selectTimeSignature_reset s sig) as (Hb & _ & Hd & Hp & Hi).
    rewrite Hb, Hp, Hi. split; [| exact Hd].
    destruct Hts as [(? & ? & ?) | ?]; [left | right]; tauto.
  - destruct (selectSubdivision_reset s sub) as (Hb & _ & Hd & Hp & Hi).
    rewrite Hb, Hp, Hi. split; [| exact Hd].
    destruct Hts as [(? & ? & ?) | ?]; [left | right]; tauto.
  - destruct (toggleAccent_frame s b) as (_ & _ & _ & Hp & Hb & Hi).
    rewrite Hp, Hb, Hi. split; [exact Hts | apply toggleAccent_dom].
  - unfold timerFire. destruct (intervalRef s) as [t |] eqn:Hi; simpl.
    + destruct Hts as [(_ & _ & Hn) | (Hp & _)]; [congruence |].
      split; [right; split; [exact Hp | discriminate] | exact Hwf].
    + rewrite Hi. split; assumption.
Qed.

Lemma v1_reachable_inv s : reachable s -> two_states s /\ wf s.
Proof.
  induction 1 as [| s e _ [Hts Hwf] _].
  - split; [left; repeat split | apply (@init_dom Timer)].
  - apply handle_inv; assumption.
Qed.

Lemma v1_stop_stops s : isPlaying s = true -> stopped (handle TogglePlay s).
Proof. intros Hp. simpl. unfold togglePlay. rewrite Hp. repeat split. Qed.

End V1Facts.

(** ** Version 2: invariants of the reachable states *)

Module V2Facts.
Import V2.

Lemma handler_intervalRef e s : intervalRef (handler e s) = intervalRef s.
Proof.
  destruct e as [| d | v | sig | sub | b |]; unfold handler; cbv beta iota.
  - unfold togglePlay. destruct (isPlaying s); reflexivity.
  - reflexivity.
  - reflexivity.
  - now destruct (selectTimeSignature_reset s sig) as (_ & _ & _ & _ & ->).
  - now destruct (selectSubdivision_reset s sub) as (_ & _ & _ & _ & ->).
  - now destruct (toggleAccent_frame s b) as (_ & _ & _ & _ & _ & ->).
  - unfold timerFire. destruct (intervalRef s) eqn:Hi; simpl; auto.
Qed.

(** A handler that leaves the component stopped leaves the tick at [-1]. *)
Lemma handler_stopped_tick e s :
  armed s -> isPlaying (handler e s) = false -> currentBeat (handler e s) = num_of_Z (-1).
Proof.
  intros Harm Hp'.
  destruct e as [| d | v | sig | sub | b |]; unfold handler in *; cbv beta iota in *.
  - unfold togglePlay in *. destruct (isPlaying s) eqn:Hp; simpl in *;
      [reflexivity | discriminate].
  - destruct Harm as [(_ & Hb & _) | (Hp & _)]; congruence.
  - simpl in *. destruct Harm as [(_ & Hb & _) | (Hp & _)]; congruence.
  - now destruct (selectTimeSignature_reset s sig) as (-> & _).
  - now destruct (selectSubdivision_reset s sub) as (-> & _).
  - destruct (toggleAccent_frame s b) as (_ & _ & _ & Hp & Hb & _).
    rewrite Hp in Hp'. rewrite Hb.
    destruct Harm as [(_ & Hb' & _) | (Hp'' & _)]; congruence.
  - unfold timerFire in *. destruct (intervalRef s) eqn:Hi; simpl in *.
    + destruct Harm as [(_ & _ & Hn) | (Hp & _)]; congruence.
    + destruct Harm as [(_ & Hb & _) | (Hp & _)]; congruence.
Qed.

Lemma runEffect_frame (o n : St) :
  bpm (runEffect o n) = bpm n /\
  timeSignature (runEffect o n) = timeSignature n /\
  subdivision (runEffect o n) = subdivision n /\
  isPlaying (runEffect o n) = isPlaying n /\
  currentBeat (runEffect o n) = currentBeat n /\
  accents (runEffect o n) = accents n /\
  heap (runEffect o n) = heap n.
Proof. unfold runEffect. case_bool_decide; repeat split. Qed.

Lemma arm_deps (s s' : St) : deps s = deps s' -> arm s = arm s'.
Proof.
  unfold deps, arm. intros Hd.
  pose proof (f_equal (fun d => fst (fst (fst (fst d)))) Hd) as H1.
  pose proof (f_equal (fun d => snd (fst (fst d))) Hd) as H3.
  pose proof (f_equal (fun d => snd (fst d)) Hd) as H4.
  pose proof (f_equal snd Hd) as H5.
  simpl in H1, H3, H4, H5. rewrite H1, H3, H4, H5. reflexivity.
Qed.

Lemma handle_armed e s : armed s -> armed (handle e s).
Proof.
  intros Harm. unfold handle, runEffect.
  pose proof (handler_stopped_tick e s Harm) as Htick.
  case_bool_decide as Hd.
  - assert (Hp : isPlaying (handler e s) = isPlaying s)
      by exact (eq_sym (f_equal (fun d => snd (fst (fst (fst d)))) Hd)).
    unfold armed. rewrite handler_intervalRef, Hp.
    destruct Harm as [(Hs & _ & Hn) | (Hs & Hi)].
    + left. split; [congruence | split; [apply Htick; congruence | exact Hn]].
    + right. rewrite Hi, (arm_deps _ _ Hd). auto.
  - unfold armed. simpl. destruct (isPlaying (handler e s)) eqn:Hp.
    + right. split; reflexivity.
    + left. auto.
Qed.

Lemma handle_wf e s : wf s -> wf (handle e s).
Proof.
  unfold wf, handle. intros Hwf.
  destruct (runEffect_frame s (handler e s)) as (_ & _ & _ & _ & _ & -> & ->).
  destruct e as [| d | v | sig | sub | b |]; unfold handler; cbv beta iota.
  - unfold togglePlay. destruct (isPlaying s); exact Hwf.
  - exact Hwf.
  - exact Hwf.
  - now destruct (selectTimeSignature_reset s sig) as (_ & _ & ? & _).
  - now destruct (selectSubdivision_reset s sub) as (_ & _ & ? & _).
  - apply toggleAccent_dom.
  - unfold timerFire. destruct (intervalRef s); exact Hwf.
Qed.

Lemma reachable_inv s : reachable s -> armed s /\ wf s.
Proof.
  induction 1 as [| s e _ [Harm Hwf] _].
  - split; [left; repeat split | apply (@init_dom Timer)].
  - split; [apply handle_armed | apply handle_wf]; assumption.
Qed.

Lemma armed_two_states s : armed s -> two_states s.
Proof.
  unfold armed, two_states, stopped.
  intros [H | (Hp & Hi)]; [left; exact H | right; split; [exact Hp | congruence]].
Qed.

Lemma stop_stops s : isPlaying s = true -> stopped (handle TogglePlay s).
Proof.
  intros Hp. unfold handle, runEffect. simpl. unfold togglePlay. rewrite Hp.
  rewrite bool_decide_false.
  - repeat split.
  - unfold deps. simpl. rewrite Hp. congruence.
Qed.

End V2Facts.

(** ** C4: the BPM buttons clamp *)

(** C4: whatever the stored bpm and the delta, [adjustBpm] gives a value
    in [20, 300] (a total function, no error path); so no reachable state of
    version 1 (buttons) stores a bpm outside [20, 300], and neither does
    version 2, whose Slider only delivers values between its
    [minimumValue] 20 and [maximumValue] 300. *)
Theorem C4_bpm_clamped :
  (forall prev delta, 20 <= adjustBpm prev delta <= 300) /\
  (forall s : V1.St, V1.reachable s -> 20 <= bpm s <= 300) /\
  (forall s : V2.St, V2.reachable s -> 20 <= bpm s <= 300).
Proof.
  assert (Hadj : forall prev delta, 20 <= adjustBpm prev delta <= 300)
    by (intros; unfold adjustBpm; lia).
  split; [exact Hadj |]. split.
  - induction 1 as [| s e _ IH Hoff]; [simpl; lia |].
    destruct e as [| d | v | sig | sub | b |]; simpl.
    + unfold V1.togglePlay. destruct (isPlaying s); exact IH.
    + apply Hadj.
    + exact IH.
    + exact IH.
    + exact IH.
    + exact IH.
    + unfold V1.timerFire. destruct (intervalRef s); exact IH.
  - induction 1 as [| s e _ IH Hoff]; [simpl; lia |].
    unfold V2.handle.
    destruct (V2Facts.runEffect_frame s (V2.handler e s)) as (-> & _).
    destruct e as [| d | v | sig | sub | b |]; simpl.
    + unfold V2.togglePlay. destruct (isPlaying s); exact IH.
    + exact IH.
    + exact Hoff.
    + exact IH.
    + exact IH.
    + exact IH.
    + unfold V2.timerFire. destruct (intervalRef s); exact IH.
Qed.

(** Witness: +10 pressed at 300 bpm stays at 300. *)
Lemma C4_bpm_clamped_witness :
  adjustBpm 300 10 = 300 /\ 20 <= adjustBpm 300 10 <= 300.
Proof.
  split; [reflexivity | apply (proj1 C4_bpm_clamped)].
Defined.

(** Version 2 re-arms on a tempo change (contrast with version 1 below). *)
Lemma V2_setBpm_rearms (s : V2.St) v :
  V2.reachable s -> isPlaying s = true ->
  intervalRef (V2.handle (SetBpm v) s) = Some (V2.arm (V2.handle (SetBpm v) s)) /\
  V2.t_period (V2.arm (V2.handle (SetBpm v) s)) = intervalMs v (timeSignature s) (subdivision s) /\
  currentBeat (V2.handle (SetBpm v) s) = currentBeat s.
Proof.
  intros Hr Hp.
  destruct (V2Facts.reachable_inv s Hr) as [Harm _].
  pose proof (V2Facts.handle_armed (SetBpm v) s Harm) as Harm'.
  destruct (V2Facts.runEffect_frame s (V2.handler (SetBpm v) s))
    as (Hb & Hts & Hsub & Hp' & Hc & _).
  assert (Hp2 : isPlaying (V2.handle (SetBpm v) s) = true)
    by (unfold V2.handle; rewrite Hp'; exact Hp).
  destruct Harm' as [(Hf & _) | (_ & Hi)]; [congruence |].
  unfold V2.handle in *.
  split; [exact Hi |]. split.
  - unfold V2.arm, s_intervalMs. cbn [V2.t_period]. rewrite Hb, Hts, Hsub. reflexivity.
  - exact Hc.
Qed.

Lemma V2_accentSet_handle (s : V2.St) e : accentSet (V2.handle e s) = accentSet (V2.handler e s).
Proof.
  unfold accentSet, V2.handle.
  destruct (V2Facts.runEffect_frame s (V2.handler e s)) as (_ & _ & _ & _ & _ & -> & ->).
  reflexivity.
Qed.

(** ** C6: the scheduler is Stopped or Running *)

(** C6: in every reachable state of either version, the component is either
    Stopped (not playing, tick [-1], no timer) or Running (playing, timer
    armed); and stopping a running component disarms the timer and sets the
    tick to [-1]. *)
Theorem C6_scheduler_two_states :
  (forall s : V1.St, V1.reachable s ->
     V1.two_states s /\ (isPlaying s = true -> V1.stopped (V1.handle TogglePlay s))) /\
  (forall s : V2.St, V2.reachable s ->
     V2.two_states s /\ (isPlaying s = true -> V2.stopped (V2.handle TogglePlay s))).
Proof.
  split; intros s Hr.
  - split; [apply (V1Facts.v1_reachable_inv s Hr) | apply V1Facts.v1_stop_stops].
  - split; [apply V2Facts.armed_two_states, (V2Facts.reachable_inv s Hr)
           | apply V2Facts.stop_stops].
Qed.

(** Witness: start then stop, in each version. *)
Lemma C6_scheduler_two_states_witness :
  V1.stopped (V1.handle TogglePlay (V1.handle TogglePlay init)) /\
  V2.stopped (V2.handle TogglePlay (V2.handle TogglePlay init)).
Proof.
  split.
  - apply (proj2 (proj1 C6_scheduler_two_states _
             (V1.reachable_step _ TogglePlay V1.reachable_init I))).
    reflexivity.
  - apply (proj2 (proj2 C6_scheduler_two_states _
             (V2.reachable_step _ TogglePlay V2.reachable_init I))).
    reflexivity.
Defined.

(** ** C7: toggling an accent twice *)

(** C7: in either version, toggling the accent at [b] twice gives back the
    accent set, for every state and every index. *)
Theorem C7_toggleAccent_twice :
  (forall (s : V1.St) b,
     accentSet (V1.handle (ToggleAccent b) (V1.handle (ToggleAccent b) s)) = accentSet s) /\
  (forall (s : V2.St) b,
     accentSet (V2.handle (ToggleAccent b) (V2.handle (ToggleAccent b) s)) = accentSet s).
Proof.
  split; intros s b.
  - simpl. rewrite !accentSet_toggleAccent. apply toggle_toggle.
  - rewrite !V2_accentSet_handle. simpl.
    rewrite accentSet_toggleAccent, V2_accentSet_handle. simpl.
    rewrite accentSet_toggleAccent. apply toggle_toggle.
Qed.

(** ** C8: choosing a time signature or a subdivision resets *)

(** C8: the accent set starts as [{0}]; in either version, choosing a time
    signature or a subdivision, in any state (running or not), sets the
    tick to [-1] and the accent set to [{0}]. *)
Theorem C8_selection_resets :
  accentSet (@init V1.Timer) = {[num_of_Z 0]} /\
  accentSet (@init V2.Timer) = {[num_of_Z 0]} /\
  (forall (s : V1.St) sig sub,
     currentBeat (V1.handle (SelectTimeSignature sig) s) = num_of_Z (-1) /\
     accentSet (V1.handle (SelectTimeSignature sig) s) = {[num_of_Z 0]} /\
     currentBeat (V1.handle (SelectSubdivision sub) s) = num_of_Z (-1) /\
     accentSet (V1.handle (SelectSubdivision sub) s) = {[num_of_Z 0]}) /\
  (forall (s : V2.St) sig sub,
     currentBeat (V2.handle (SelectTimeSignature sig) s) = num_of_Z (-1) /\
     accentSet (V2.handle (SelectTimeSignature sig) s) = {[num_of_Z 0]} /\
     currentBeat (V2.handle (SelectSubdivision sub) s) = num_of_Z (-1) /\
     accentSet (V2.handle (SelectSubdivision sub) s) = {[num_of_Z 0]}).
Proof.
  split; [apply init_accents |]. split; [apply init_accents |]. split.
  - intros s sig sub. simpl.
    destruct (selectTimeSignature_reset s sig) as (H1 & H2 & _).
    destruct (selectSubdivision_reset s sub) as (H3 & H4 & _).
    auto.
  - intros s sig sub.
    rewrite !V2_accentSet_handle. unfold V2.handle.
    destruct (V2Facts.runEffect_frame s (V2.handler (SelectTimeSignature sig) s))
      as (_ & _ & _ & _ & -> & _).
    destruct (V2Facts.runEffect_frame s (V2.handler (SelectSubdivision sub) s))
      as (_ & _ & _ & _ & -> & _).
    simpl.
    destruct (selectTimeSignature_reset s sig) as (H1 & H2 & _).
    destruct (selectSubdivision_reset s sub) as (H3 & H4 & _).
    auto.
Qed.

(** ** C9: a tempo change while running *)

(** C9 (version 1 at a failing input): start at 120 bpm in 4/4 with quarter
    notes, then press +10.  The component is running at 130 bpm, but the
    timer armed by [togglePlay] keeps the 500 ms period of 120 bpm: version
    1 never re-arms it, while the render's [intervalMs] is now 6000/13 ms.
    (Version 2 re-arms, see [V2_setBpm_rearms].) *)
Theorem C9_v1_tempo_change_keeps_stale_timer :
  let s := V1.run [TogglePlay; AdjustBpm 10] init in
  isPlaying s = true /\ bpm s = 130 /\
  option_map V1.t_period (intervalRef s) = Some (num_of_Z 500) /\
  s_intervalMs s <> num_of_Z 500.
Proof.
  simpl. split; [reflexivity |]. split; [reflexivity |]. split.
  - f_equal. apply Qc_is_canon. vm_compute. reflexivity.
  - intros H. apply (f_equal this) in H. vm_compute in H. discriminate.
Qed.

(** ** C10: what [toggleAccent] changes *)

(** C10: in every reachable state of either version, [toggleAccent b]
    stores a new [Set] object (the old one is not mutated), flips the
    membership of [b] only, and leaves bpm, time signature, subdivision,
    tick and the playing flag unchanged. *)
Theorem C10_toggleAccent_frame :
  (forall (s : V1.St) b, V1.reachable s -> toggle_frame s (V1.handle (ToggleAccent b) s) b) /\
  (forall (s : V2.St) b, V2.reachable s -> toggle_frame s (V2.handle (ToggleAccent b) s) b).
Proof.
  assert (Hgen : forall T (s : State T) b, accents s ∈ dom (heap s) ->
            toggle_frame s (toggleAccent b s) b).
  { intros T s b Hwf. unfold toggle_frame.
    destruct (toggleAccent_fresh s b Hwf) as [Hne Hold].
    destruct (toggleAccent_frame s b) as (Hb & Hts & Hsub & Hp & Hc & _).
    rewrite accentSet_toggleAccent.
    split; [exact Hne |]. split; [exact Hold |].
    split; [| split; [| tauto]].
    - case_bool_decide; set_solver.
    - intros j Hj. case_bool_decide; set_solver. }
  split; intros s b Hr.
  - apply Hgen, (V1Facts.v1_reachable_inv s Hr).
  - pose proof (Hgen _ s b (proj2 (V2Facts.reachable_inv s Hr))) as Hf.
    unfold toggle_frame in *. rewrite V2_accentSet_handle. unfold V2.handle.
    destruct (V2Facts.runEffect_frame s (V2.handler (ToggleAccent b) s))
      as (-> & -> & -> & -> & -> & -> & ->).
    exact Hf.
Qed.

(** Witness: toggling index 0 in the initial state of each version. *)
Lemma C10_toggleAccent_frame_witness :
  toggle_frame init (V1.handle (ToggleAccent (num_of_Z 0)) init) (num_of_Z 0) /\
  toggle_frame init (V2.handle (ToggleAccent (num_of_Z 0)) init) (num_of_Z 0).
Proof.
  split.
  - exact (proj1 C10_toggleAccent_frame init (num_of_Z 0) V1.reachable_init).
  - exact (proj2 C10_toggleAccent_frame init (num_of_Z 0) V2.reachable_init).
Defined.

(** ** WAV encoding: byte-level facts *)

Lemma length_write_bytes buf off bs : length (write_bytes buf off bs) = length buf.
Proof.
  revert buf off. induction bs as [|b bs IH]; intros buf off; simpl; [done|].
  rewrite IH. apply length_insert.
Qed.

Lemma length_write_samples buf off xs : length (write_samples buf off xs) = length buf.
Proof.
  revert buf off. induction xs as [|x xs IH]; intros buf off; simpl; [done|].
  rewrite IH. unfold setInt16. apply length_write_bytes.
Qed.

Lemma take_write_bytes_lt m buf off bs : (off + length bs <= m)%nat ->
  take m (write_bytes buf off bs) = write_bytes (take m buf) off bs.
Proof.
  revert buf off. induction bs as [|b bs IH]; intros buf off Hm; simpl in *; [done|].
  rewrite IH by lia. rewrite take_insert_lt by lia. done.
Qed.

Lemma take_write_bytes_ge m buf off bs : (m <= off)%nat ->
  take m (write_bytes buf off bs) = take m buf.
Proof.
  revert buf off. induction bs as [|b bs IH]; intros buf off Hm; simpl; [done|].
  rewrite IH by lia. apply take_insert_ge. lia.
Qed.

Lemma take_write_samples m buf off xs : (m <= off)%nat ->
  take m (write_samples buf off xs) = take m buf.
Proof.
  revert buf off. induction xs as [|x xs IH]; intros buf off Hm; simpl; [done|].
  rewrite IH by lia. unfold setInt16. apply take_write_bytes_ge. lia.
Qed.


Lemma lookup_write_bytes_out buf off bs j : (j < off \/ off + length bs <= j)%nat ->
  write_bytes buf off bs !! j = buf !! j.
Proof.
  revert buf off. induction bs as [|b bs IH]; intros buf off Hj; simpl in *; [done|].
  rewrite IH by lia. apply list_lookup_insert_ne. lia.
Qed.

Lemma lookup_write_bytes_in buf off bs i : (off + length bs <= length buf)%nat -> (i < length bs)%nat ->
  write_bytes buf off bs !! (off + i)%nat = bs !! i.
Proof.
  revert buf off i. induction bs as [|b bs IH]; intros buf off i Hm Hi; simpl in *; [lia|].
  destruct i as [|i].
  - rewrite lookup_write_bytes_out by lia. rewrite Nat.add_0_r.
    apply list_lookup_insert_eq. lia.
  - replace (off + S i)%nat with (S off + i)%nat by lia. apply IH; [rewrite length_insert|]; lia.
Qed.

Lemma read_write_bytes buf off bs : (off + length bs <= length buf)%nat ->
  take (length bs) (drop off (write_bytes buf off bs)) = bs.
Proof.
  intros Hm. apply list_eq. intros i.
  destruct (decide (i < length bs)%nat) as [Hi|Hi].
  - rewrite lookup_take_lt, lookup_drop by done. apply lookup_write_bytes_in; done.
  - rewrite lookup_take_ge by lia. symmetry. apply lookup_ge_None_2. lia.
Qed.

Lemma length_le_bytes k v : length (le_bytes k v) = k.
Proof. revert v. induction k; intros v; simpl; [done|]. by rewrite IHk. Qed.

Lemma le_value_le_bytes k v : le_value (le_bytes k v) = v mod 256 ^ Z.of_nat k.
Proof.
  revert v. induction k as [|k IH]; intros v; simpl le_bytes; simpl le_value.
  - rewrite Z.mod_1_r. done.
  - rewrite IH. rewrite Nat2Z.inj_succ, Z.pow_succ_r by lia.
    rewrite Z.rem_mul_r; [reflexivity | lia | apply Z.pow_pos_nonneg; lia].
Qed.

Lemma take_createWavBytes samples sr :
  take 44 (createWavBytes samples sr) = wav_header (length samples) sr.
Proof.
  unfold createWavBytes. rewrite take_write_samples by lia.
  unfold writeString, setUint32, setUint16.
  repeat rewrite take_write_bytes_lt by (rewrite ?length_le_bytes; simpl; lia).
  rewrite take_replicate, Nat.min_l by lia.
  reflexivity.
Qed.

Lemma length_createWavBytes samples sr :
  length (createWavBytes samples sr) = (44 + length samples * 2)%nat.
Proof.
  unfold createWavBytes, writeString, setUint32, setUint16.
  rewrite length_write_samples, !length_write_bytes. apply length_replicate.
Qed.

Lemma take_drop_take44 (b : list Z) off k : (off + k <= 44)%nat ->
  take k (drop off b) = take k (drop off (take 44 b)).
Proof. intros H. rewrite !take_drop_commute, take_take, Nat.min_l by lia. done. Qed.

Lemma read_write_samples buf off xs k x :
  (off + length xs * 2 <= length buf)%nat -> xs !! k = Some x ->
  take 2 (drop (off + k * 2) (write_samples buf off xs)) = le_bytes 2 (Qtrunc (sample_value x)).
Proof.
  revert buf off k. induction xs as [|y xs IH]; intros buf off k Hlen Hk; [done|].
  simpl in Hlen.
  change (write_samples buf off (y :: xs))
    with (write_samples (setInt16 buf off (sample_value y)) (off + 2) xs).
  destruct k as [|k]; simpl in Hk.
  - injection Hk as ->. rewrite Nat.mul_0_l, Nat.add_0_r.
    rewrite take_drop_commute, take_write_samples, <- take_drop_commute by lia.
    unfold setInt16.
    pose proof (read_write_bytes buf off (le_bytes 2 (Qtrunc (sample_value x)))) as H.
    rewrite length_le_bytes in H. apply H. lia.
  - replace (off + S k * 2)%nat with (off + 2 + k * 2)%nat by lia.
    apply IH; [|done]. unfold setInt16. rewrite length_write_bytes. lia.
Qed.

Lemma sample_value_range x : -32768 <= Qtrunc (sample_value x) <= 32767.
Proof.
  unfold sample_value.
  assert (Hs : (-1 <= Qmax (-1) (Qmin 1 x) <= 1)%Q).
  { split; [apply Q.le_max_l|]. apply Q.max_lub; [discriminate | apply Q.le_min_l]. }
  revert Hs. generalize (Qmax (-1) (Qmin 1 x)) as s. intros s Hs.
  destruct (Qlt_le_dec s 0) as [Hneg|Hpos]; unfold Qtrunc.
  - destruct (Qle_bool 0 (s * 32768)) eqn:E.
    { apply Qle_bool_iff in E. lra. }
    pose proof (Qle_ceiling (s * 32768)) as H1. pose proof (Qceiling_lt (s * 32768)) as H2.
    set (c := Qceiling (s * 32768)) in *.
    assert (HA : (inject_Z (-32768) <= inject_Z c)%Q)
      by (change (inject_Z (-32768)) with (-32768 # 1)%Q; lra).
    assert (HB : (inject_Z (c - 1) < inject_Z 0)%Q)
      by (change (inject_Z 0) with 0%Q; lra).
    rewrite <- Zle_Qle in HA. rewrite <- Zlt_Qlt in HB. lia.
  - destruct (Qle_bool 0 (s * 32767)) eqn:E.
    2:{ assert (Hle : (0 <= s * 32767)%Q) by lra. apply Qle_bool_iff in Hle. congruence. }
    pose proof (Qfloor_le (s * 32767)) as H1. pose proof (Qlt_floor (s * 32767)) as H2.
    set (c := Qfloor (s * 32767)) in *.
    assert (HA : (inject_Z 0 < inject_Z (c + 1))%Q)
      by (change (inject_Z 0) with 0%Q; lra).
    assert (HB : (inject_Z c <= inject_Z 32767)%Q)
      by (change (inject_Z 32767) with (32767 # 1)%Q; lra).
    rewrite <- Zlt_Qlt in HA. rewrite <- Zle_Qle in HB. lia.
Qed.

Lemma int16_of_le_bytes v : -32768 <= v <= 32767 ->
  (let u := le_value (le_bytes 2 v) in if 32768 <=? u then u - 65536 else u) = v.
Proof.
  intros Hv. cbv zeta. rewrite le_value_le_bytes. change (256 ^ Z.of_nat 2) with 65536.
  destruct (Z_lt_le_dec v 0).
  - rewrite <- (Z.mod_unique v 65536 (-1) (v + 65536)) by lia.
    destruct (Z.leb_spec 32768 (v + 65536)); lia.
  - rewrite Z.mod_small by lia. destruct (Z.leb_spec 32768 v); lia.
Qed.


(** ** Order facts on the numbers of the model *)

Lemma this_num_of_Z z : this (num_of_Z z) = inject_Z z.
Proof. reflexivity. Qed.

Lemma this_plus (a b : num) : this (Qcplus a b) == this a + this b.
Proof. unfold Qcplus, Q2Qc. simpl. apply Qred_correct. Qed.

Lemma this_mult (a b : num) : this (Qcmult a b) == this a * this b.
Proof. unfold Qcmult, Q2Qc. simpl. apply Qred_correct. Qed.

Lemma this_div (a b : num) : this (Qcdiv a b) == this a / this b.
Proof.
  unfold Qcdiv, Qcmult, Qcinv, Q2Qc. simpl. rewrite !Qred_correct. reflexivity.
Qed.

Lemma this_minus (a b : num) : this (Qcminus a b) == this a - this b.
Proof.
  unfold Qcminus, Qcplus, Qcopp, Q2Qc. simpl. rewrite !Qred_correct. reflexivity.
Qed.

(** On a non-negative dividend and a positive divisor, [%] lands in
    [[0, divisor)], also on non-integer values. *)
Lemma js_rem_bounds x y : Qcle (num_of_Z 0) x -> Qclt (num_of_Z 0) y ->
  Qcle (num_of_Z 0) (js_rem x y) /\ Qclt (js_rem x y) y.
Proof.
  unfold Qcle, Qclt. rewrite !this_num_of_Z. change (inject_Z 0) with 0%Q.
  intros Hx Hy. unfold js_rem, js_trunc.
  pose proof (this_div x y) as Hq.
  assert (H0 : (0 <= this x / this y)%Q) by (apply Qle_shift_div_l; lra).
  assert (Hb : Qle_bool 0 (this (Qcdiv x y)) = true) by (apply Qle_bool_iff; rewrite Hq; exact H0).
  rewrite Hb, (Qfloor_comp _ _ Hq).
  pose proof (Qfloor_le (this x / this y)) as Hf1.
  pose proof (Qlt_floor (this x / this y)) as Hf2.
  set (f := Qfloor (this x / this y)) in *.
  rewrite this_minus, this_mult, this_num_of_Z.
  assert (Hyx : (this y * (this x / this y) == this x)%Q) by (apply Qmult_div_r; intros Hz; lra).
  split.
  - assert (H1 : (this y * inject_Z f <= this y * (this x / this y))%Q) by (apply Qmult_le_l; assumption).
    lra.
  - assert (H1 : (this y * (this x / this y) < this y * inject_Z (f + 1))%Q) by (apply Qmult_lt_l; assumption).
    rewrite inject_Z_plus in H1. change (inject_Z 1) with 1%Q in H1.
    assert (H2 : (this y * (inject_Z f + 1) == this y * inject_Z f + this y)%Q) by ring.
    lra.
Qed.

(** [(-1 + 1) % total] is [0], whatever the total. *)
Lemma nextBeat_minus1 y : nextBeat (num_of_Z (-1)) y = num_of_Z 0.
Proof.
  unfold nextBeat. rewrite Qcplus_of_Z. change (-1 + 1) with 0. unfold js_rem, js_trunc.
  assert (Hq : (this (Qcdiv (num_of_Z 0) y) == 0)%Q) by (rewrite this_div; apply Qmult_0_l).
  assert (Hb : Qle_bool 0 (this (Qcdiv (num_of_Z 0) y)) = true)
    by (apply Qle_bool_iff; rewrite Hq; apply Qle_refl).
  rewrite Hb, (Qfloor_comp _ _ Hq). change (Qfloor 0) with 0.
  apply Qc_is_canon. rewrite this_minus, this_mult, !this_num_of_Z.
  change (inject_Z 0) with 0%Q. ring.
Qed.

Lemma Qcle_plus1 (t : num) : t = num_of_Z (-1) \/ Qcle (num_of_Z 0) t ->
  Qcle (num_of_Z 0) (Qcplus t (num_of_Z 1)).
Proof.
  intros [-> | Ht].
  - rewrite Qcplus_of_Z. apply Qle_refl.
  - unfold Qcle in *. rewrite this_plus, !this_num_of_Z in *.
    change (inject_Z 0) with 0%Q in *. change (inject_Z 1) with 1%Q. lra.
Qed.

(** The offered time signatures give positive beat lengths and totals. *)
Lemma TIME_SIGNATURES_pos ts sub : ts ∈ TIME_SIGNATURES ->
  Qclt (num_of_Z 0) (subdivisionsPerBeat ts sub) /\
  Qclt (num_of_Z 0) (totalSubdivisions ts sub).
Proof.
  intros Hts. unfold TIME_SIGNATURES in Hts.
  repeat (rewrite elem_of_cons in Hts; destruct Hts as [-> | Hts]);
    [.. | apply elem_of_nil in Hts; contradiction];
    destruct sub; split; vm_compute; reflexivity.
Qed.

Lemma init_ts : timeSignature (@init V1.Timer) ∈ TIME_SIGNATURES.
Proof. unfold TIME_SIGNATURES. simpl. apply list_elem_of_In. simpl. tauto. Qed.

(** ** Version 1: the timer's own count *)

Module V1More.
Import V1.

Lemma handle_timeSignature e s :
  timeSignature (handle e s) =
  match e with SelectTimeSignature sig => sig | _ => timeSignature s end.
Proof.
  destruct e; simpl; try reflexivity.
  - unfold togglePlay. destruct (isPlaying s); reflexivity.
  - unfold timerFire. destruct (intervalRef s); reflexivity.
Qed.

Lemma reachable_ts s : reachable s -> timeSignature s ∈ TIME_SIGNATURES.
Proof.
  induction 1 as [| s e _ IH Hoff]; [exact init_ts |].
  rewrite handle_timeSignature. destruct e; try exact IH. exact Hoff.
Qed.

(** No handler changes a [Set] object that already exists. *)
Lemma handle_heap e s l : l ∈ dom (heap s) -> heap (handle e s) !! l = heap s !! l.
Proof.
  intros Hl.
  assert (Hne : fresh (dom (heap s)) <> l)
    by (intros Heq; pose proof (is_fresh (dom (heap s))) as Hf; rewrite Heq in Hf; contradiction).
  destruct e; simpl.
  - unfold togglePlay. destruct (isPlaying s); reflexivity.
  - reflexivity.
  - reflexivity.
  - rewrite lookup_insert_ne by congruence. reflexivity.
  - rewrite lookup_insert_ne by congruence. reflexivity.
  - rewrite !lookup_insert_ne by congruence. reflexivity.
  - unfold timerFire. destruct (intervalRef s); reflexivity.
Qed.

Lemma handle_dom e s l : l ∈ dom (heap s) -> l ∈ dom (heap (handle e s)).
Proof.
  intros Hl. pose proof (handle_heap e s l Hl) as H.
  apply elem_of_dom in Hl as [x Hx]. rewrite <- H in Hx. eapply elem_of_dom_2. exact Hx.
Qed.

Lemma handle_intervalRef e s :
  intervalRef (handle e s) =
  match e with
  | TogglePlay => intervalRef (togglePlay s)
  | TimerFire => intervalRef (timerFire s)
  | _ => intervalRef s
  end.
Proof. destruct e; reflexivity. Qed.

Lemma reachable_timer_wf s : reachable s -> timer_wf s.
Proof.
  induction 1 as [| s e Hr IH Hoff].
  - intros t Ht. discriminate.
  - intros t Ht. apply handle_dom.
    rewrite handle_intervalRef in Ht. destruct e; try (apply IH; exact Ht).
    + unfold togglePlay in Ht. destruct (isPlaying s); simpl in Ht; [discriminate |].
      injection Ht as <-. simpl. apply (V1Facts.v1_reachable_inv s Hr).
    + unfold timerFire in Ht. destruct (intervalRef s) as [t0 |] eqn:Hi; simpl in Ht.
      * injection Ht as <-. simpl. apply (IH t0 Hi).
      * congruence.
Qed.

Lemma reachable_beat_inv s : reachable s -> beat_inv s.
Proof.
  induction 1 as [| s e Hr IH Hoff].
  - intros t Ht. discriminate.
  - pose proof (reachable_ts s Hr) as Hts.
    destruct e as [| d | v | sig | sub | b |]; intros t Ht; simpl in Ht |- *.
    + unfold togglePlay in Ht |- *. destruct (isPlaying s); simpl in Ht |- *; [discriminate |].
      injection Ht as <-. simpl. split; [left; reflexivity |].
      split; [apply Qle_refl | apply (TIME_SIGNATURES_pos _ _ Hts)].
    + exact (IH t Ht).
    + exact (IH t Ht).
    + destruct (IH t Ht) as (_ & H1 & H2). split; [right; reflexivity | tauto].
    + destruct (IH t Ht) as (_ & H1 & H2). split; [right; reflexivity | tauto].
    + exact (IH t Ht).
    + unfold timerFire in Ht |- *. destruct (intervalRef s) as [t0 |] eqn:Hi; simpl in Ht |- *.
      * injection Ht as <-. simpl. split; [left; reflexivity |].
        destruct (IH t0 Hi) as (_ & H1 & H2).
        apply js_rem_bounds; [apply Qcle_plus1; right; exact H1 |].
        eapply Qcle_lt_trans; [exact H1 | exact H2].
      * congruence.
Qed.

Lemma fires_reachable n s : reachable s -> reachable (Nat.iter n (handle TimerFire) s).
Proof.
  intros Hr. induction n as [| n IH]; [exact Hr |].
  apply (reachable_step _ TimerFire); [exact IH | exact I].
Qed.

End V1More.

Module V2More.
Import V2.

Lemma v2_handle_timeSignature e s :
  timeSignature (handle e s) =
  match e with SelectTimeSignature sig => sig | _ => timeSignature s end.
Proof.
  unfold handle. destruct (V2Facts.runEffect_frame s (handler e s)) as (_ & -> & _).
  destruct e; simpl; try reflexivity.
  - unfold togglePlay. destruct (isPlaying s); reflexivity.
  - unfold timerFire. destruct (intervalRef s); reflexivity.
Qed.

Lemma v2_reachable_ts s : reachable s -> timeSignature s ∈ TIME_SIGNATURES.
Proof.
  induction 1 as [| s e _ IH Hoff]; [exact init_ts |].
  rewrite v2_handle_timeSignature. destruct e; try exact IH. exact Hoff.
Qed.

Lemma v2_handle_heap e s l : l ∈ dom (heap s) -> heap (handle e s) !! l = heap s !! l.
Proof.
  intros Hl. unfold handle.
  destruct (V2Facts.runEffect_frame s (handler e s)) as (_ & _ & _ & _ & _ & _ & ->).
  assert (Hne : fresh (dom (heap s)) <> l)
    by (intros Heq; pose proof (is_fresh (dom (heap s))) as Hf; rewrite Heq in Hf; contradiction).
  destruct e; simpl.
  - unfold togglePlay. destruct (isPlaying s); reflexivity.
  - reflexivity.
  - reflexivity.
  - rewrite lookup_insert_ne by congruence. reflexivity.
  - rewrite lookup_insert_ne by congruence. reflexivity.
  - rewrite !lookup_insert_ne by congruence. reflexivity.
  - unfold timerFire. destruct (intervalRef s); reflexivity.
Qed.

Lemma armed_sync s : armed s ->
  intervalRef s = if isPlaying s then Some (arm s) else None.
Proof. intros [(-> & _ & ->) | (-> & ->)]; reflexivity. Qed.

Lemma tick_handle e s : tick_in_measure (handle e s) <-> tick_in_measure (handler e s).
Proof.
  unfold tick_in_measure, s_totalSubdivisions, handle.
  destruct (V2Facts.runEffect_frame s (handler e s)) as (_ & -> & -> & _ & -> & _).
  reflexivity.
Qed.

Lemma handler_tick e s : armed s -> timeSignature s ∈ TIME_SIGNATURES ->
  tick_in_measure s -> tick_in_measure (handler e s).
Proof.
  intros Harm Hts Htick.
  destruct e as [| d | v | sig | sub | b |]; unfold handler; cbv beta iota.
  - unfold togglePlay. destruct (isPlaying s); [left; reflexivity |].
    right. split; [apply Qle_refl | apply (TIME_SIGNATURES_pos _ _ Hts)].
  - exact Htick.
  - exact Htick.
  - left. apply selectTimeSignature_reset.
  - left. apply selectSubdivision_reset.
  - unfold tick_in_measure, s_totalSubdivisions.
    destruct (toggleAccent_frame s b) as (_ & -> & -> & _ & -> & _). exact Htick.
  - unfold timerFire. destruct (intervalRef s) as [t |] eqn:Hi; [| exact Htick].
    rewrite (armed_sync s Harm) in Hi. destruct (isPlaying s); [| discriminate].
    injection Hi as <-. right. cbn [currentBeat set_currentBeat].
    change (s_totalSubdivisions (set_currentBeat (nextBeat (currentBeat s) (t_total (arm s))) s))
      with (t_total (arm s)).
    apply js_rem_bounds; [| apply (TIME_SIGNATURES_pos _ _ Hts)].
    apply Qcle_plus1. destruct Htick as [H | [H _]]; [left | right]; exact H.
Qed.

Lemma reachable_tick s : reachable s -> tick_in_measure s.
Proof.
  induction 1 as [| s e Hr IH Hoff]; [left; reflexivity |].
  apply tick_handle, handler_tick; [apply (V2Facts.reachable_inv s Hr) | apply v2_reachable_ts |]; assumption.
Qed.

Lemma pattern_at_0 sub total : getSubdivisionPattern sub (num_of_Z 0) total = true.
Proof. destruct sub; reflexivity. Qed.

End V2More.

(** ** Further properties of the code *)

(** X1: [createWavBlob]: the buffer holds the 44-byte header and two bytes per
    sample; the header's fields read back as written, the RIFF size being
    the file length minus 8 and the data size the length minus 44 (both as
    [setUint32] stores them, modulo 2^32). *)
Theorem createWavBlob_header_fields samples sr :
  let b := createWavBytes samples sr in
  length b = (44 + length samples * 2)%nat /\
  take 4 b = [82; 73; 70; 70] /\ take 4 (drop 8 b) = [87; 65; 86; 69] /\
  take 4 (drop 12 b) = [102; 109; 116; 32] /\ take 4 (drop 36 b) = [100; 97; 116; 97] /\
  getUint 4 b 4 = (Z.of_nat (length b) - 8) mod 2 ^ 32 /\
  getUint 4 b 16 = 16 /\ getUint 2 b 20 = 1 /\ getUint 2 b 22 = 1 /\
  getUint 4 b 24 = sr mod 2 ^ 32 /\ getUint 4 b 28 = (sr * 2) mod 2 ^ 32 /\
  getUint 2 b 32 = 2 /\ getUint 2 b 34 = 16 /\
  getUint 4 b 40 = (Z.of_nat (length b) - 44) mod 2 ^ 32.
Proof.
  cbv zeta. rewrite length_createWavBytes. unfold getUint.
  set (n := length samples).
  assert (Hb : forall off k, (off + k <= 44)%nat ->
    take k (drop off (createWavBytes samples sr)) = take k (drop off (wav_header n sr))).
  { intros off k Hk. rewrite take_drop_take44, take_createWavBytes by done. done. }
  assert (H0 : take 4 (createWavBytes samples sr) = take 4 (wav_header n sr)).
  { pose proof (Hb 0%nat 4%nat ltac:(lia)) as H. rewrite !drop_0 in H. exact H. }
  rewrite H0, !Hb by lia.
  replace (Z.of_nat (44 + n * 2) - 8) with (36 + Z.of_nat n * 2) by lia.
  replace (Z.of_nat (44 + n * 2) - 44) with (Z.of_nat n * 2) by lia.
  assert (Hf : forall off k v, take k (drop off (wav_header n sr)) = le_bytes k v ->
    le_value (take k (drop off (wav_header n sr))) = v mod 256 ^ Z.of_nat k).
  { intros off k v ->. apply le_value_le_bytes. }
  split; [done |]. split; [done |]. split; [done |]. split; [done |]. split; [done |].
  split; [apply Hf; reflexivity |].
  split; [rewrite (Hf _ _ 16) by reflexivity; done |].
  split; [rewrite (Hf _ _ 1) by reflexivity; done |].
  split; [rewrite (Hf _ _ 1) by reflexivity; done |].
  split; [apply Hf; reflexivity |].
  split; [apply Hf; reflexivity |].
  split; [rewrite (Hf _ _ 2) by reflexivity; done |].
  split; [rewrite (Hf _ _ 16) by reflexivity; done |].
  apply Hf; reflexivity.
Qed.

(** X2: [createWavBlob]: sample [k] is stored at byte [44 + 2k] and reads back
    with [getInt16] as the clamped, scaled and truncated value, which always
    lies in [[-32768, 32767]]: the 16-bit store never wraps around. *)
Theorem createWavBlob_sample_roundtrip samples sr k x :
  samples !! k = Some x ->
  getInt16 (createWavBytes samples sr) (44 + k * 2) = Qtrunc (sample_value x) /\
  -32768 <= Qtrunc (sample_value x) <= 32767.
Proof.
  intros Hk. pose proof (sample_value_range x) as Hr. split; [| exact Hr].
  unfold getInt16, getUint, createWavBytes.
  rewrite (read_write_samples _ _ _ _ x); [apply int16_of_le_bytes; exact Hr | | exact Hk].
  unfold writeString, setUint32, setUint16.
  rewrite !length_write_bytes, length_replicate. lia.
Qed.

Lemma createWavBlob_sample_roundtrip_witness :
  [1 # 2; -1; 2]%Q !! 2%nat = Some 2%Q /\
  getInt16 (createWavBytes [1 # 2; -1; 2]%Q 44100) (44 + 2 * 2) = 32767.
Proof.
  split; [reflexivity |].
  rewrite (proj1 (createWavBlob_sample_roundtrip [1 # 2; -1; 2]%Q 44100 2 2%Q eq_refl)).
  vm_compute. reflexivity.
Defined.



(** X4: No handler of either version changes a [Set] object that already
    exists: [toggleAccent] and the selectors store new objects. *)
Theorem handlers_never_mutate_sets :
  (forall (s : V1.St) e l, l ∈ dom (heap s) -> heap (V1.handle e s) !! l = heap s !! l) /\
  (forall (s : V2.St) e l, l ∈ dom (heap s) -> heap (V2.handle e s) !! l = heap s !! l).
Proof. split; intros s e l; [apply V1More.handle_heap | apply V2More.v2_handle_heap]. Qed.

Lemma handlers_never_mutate_sets_witness :
  (1%positive ∈ dom (heap (@init V1.Timer)) /\
   heap (V1.handle (ToggleAccent (num_of_Z 0)) init) !! 1%positive = Some {[num_of_Z 0]}) /\
  (1%positive ∈ dom (heap (@init V2.Timer)) /\
   heap (V2.handle (ToggleAccent (num_of_Z 0)) init) !! 1%positive = Some {[num_of_Z 0]}).
Proof.
  split; (split; [apply init_dom |]).
  - rewrite (proj1 handlers_never_mutate_sets init _ 1%positive (init_dom (T:=V1.Timer))).
    reflexivity.
  - rewrite (proj2 handlers_never_mutate_sets init _ 1%positive (init_dom (T:=V2.Timer))).
    reflexivity.
Defined.

(** X5: Version 1: in every reachable state, toggling an accent does not change
    what the next timer fire plays: the callback reads the [Set] it closed
    over at Start, which is never mutated. *)
Theorem V1_toggleAccent_not_heard_by_timer (s : V1.St) b :
  V1.reachable s -> V1.fireClick (V1.handle (ToggleAccent b) s) = V1.fireClick s.
Proof.
  intros Hr. pose proof (V1More.reachable_timer_wf s Hr) as Htw.
  unfold V1.fireClick.
  replace (intervalRef (V1.handle (ToggleAccent b) s)) with (intervalRef s) by reflexivity.
  destruct (intervalRef s) as [t |] eqn:Hi; [| reflexivity].
  unfold set_contents. rewrite (V1More.handle_heap (ToggleAccent b) s _ (Htw t Hi)).
  reflexivity.
Qed.

Lemma V1_toggleAccent_not_heard_by_timer_witness :
  V1.reachable (V1.handle TogglePlay init) /\
  V1.fireClick (V1.handle (ToggleAccent (num_of_Z 1)) (V1.handle TogglePlay init)) = Some false.
Proof.
  assert (Hr : V1.reachable (V1.handle TogglePlay init))
    by (apply (V1.reachable_step _ TogglePlay); [exact V1.reachable_init | exact I]).
  split; [exact Hr |].
  rewrite (V1_toggleAccent_not_heard_by_timer _ (num_of_Z 1) Hr). vm_compute. reflexivity.
Defined.

(** X6: Version 1: the timer counts within the measure it was armed with
    ([0 <= beat < totalSubdivisions] of that time), and the displayed tick
    is the timer's count or [-1]. *)
Theorem V1_timer_count_in_armed_measure (s : V1.St) t :
  V1.reachable s -> intervalRef s = Some t ->
  (currentBeat s = V1.t_beat t \/ currentBeat s = num_of_Z (-1)) /\
  Qcle (num_of_Z 0) (V1.t_beat t) /\ Qclt (V1.t_beat t) (V1.t_total t).
Proof. intros Hr. apply (V1More.reachable_beat_inv s Hr). Qed.

Lemma V1_timer_count_in_armed_measure_witness :
  V1.reachable (V1.handle TogglePlay init) /\
  intervalRef (V1.handle TogglePlay init) =
    Some (V1.mkTimer (num_of_Z 500) (num_of_Z 4) 1%positive (num_of_Z 0)) /\
  Qclt (num_of_Z 0) (num_of_Z 4).
Proof.
  assert (Hr : V1.reachable (V1.handle TogglePlay init))
    by (apply (V1.reachable_step _ TogglePlay); [exact V1.reachable_init | exact I]).
  assert (Hi : intervalRef (V1.handle TogglePlay init) =
    Some (V1.mkTimer (num_of_Z 500) (num_of_Z 4) 1%positive (num_of_Z 0))).
  { simpl. f_equal. f_equal; apply Qc_is_canon; vm_compute; reflexivity. }
  split; [exact Hr |]. split; [exact Hi |].
  exact (proj2 (proj2 (V1_timer_count_in_armed_measure _ _ Hr Hi))).
Defined.

(** X7: Version 1: a running component can reach a tick that is not [-1] and
    matches none of the rendered beat buttons (4/4 in sixteenths, ten
    fires, then 2/4: the timer keeps counting to 16 over 8 buttons). *)
Theorem V1_tick_beyond_buttons :
  exists s : V1.St, V1.reachable s /\ isPlaying s = true /\
    currentBeat s <> num_of_Z (-1) /\
    forallb (fun i => negb (V1.buttonActive s i)) (V1.buttons s) = true.
Proof.
  set (s0 := V1.handle TogglePlay (V1.handle (SelectSubdivision sixteenth) init)).
  set (s1 := V1.handle TimerFire
               (V1.handle (SelectTimeSignature (mkTS 2 4)) (Nat.iter 10 (V1.handle TimerFire) s0))).
  exists s1. split; [| split; [| split]].
  - apply (V1.reachable_step _ TimerFire); [| exact I].
    apply (V1.reachable_step _ (SelectTimeSignature (mkTS 2 4))).
    + apply V1More.fires_reachable.
      apply (V1.reachable_step _ TogglePlay); [| exact I].
      apply (V1.reachable_step _ (SelectSubdivision sixteenth)); [exact V1.reachable_init |].
      simpl. apply list_elem_of_In. simpl. tauto.
    + simpl. apply list_elem_of_In. simpl. tauto.
  - vm_compute. reflexivity.
  - intros H. apply (f_equal this) in H. vm_compute in H. discriminate.
  - vm_compute. reflexivity.
Qed.

(** X8: Version 2: in every reachable state, the armed timer is the one of the
    current render: none when stopped, and when playing one with the
    current [intervalMs], [totalSubdivisions], subdivision and accent set. *)
Theorem V2_timer_matches_render (s : V2.St) :
  V2.reachable s ->
  intervalRef s =
    if isPlaying s
    then Some (V2.mkTimer (s_intervalMs s) (s_totalSubdivisions s) (subdivision s) (accents s))
    else None.
Proof.
  intros Hr. rewrite (V2More.armed_sync s (proj1 (V2Facts.reachable_inv s Hr))). reflexivity.
Qed.

Lemma V2_timer_matches_render_witness :
  V2.reachable (V2.handle (SetBpm 60) (V2.handle TogglePlay init)) /\
  option_map V2.t_period (intervalRef (V2.handle (SetBpm 60) (V2.handle TogglePlay init))) =
    Some (num_of_Z 1000).
Proof.
  assert (Hr : V2.reachable (V2.handle (SetBpm 60) (V2.handle TogglePlay init))).
  { apply (V2.reachable_step _ (SetBpm 60)); [| simpl; lia].
    apply (V2.reachable_step _ TogglePlay); [exact V2.reachable_init | exact I]. }
  split; [exact Hr |].
  rewrite (V2_timer_matches_render _ Hr).
  replace (isPlaying (V2.handle (SetBpm 60) (V2.handle TogglePlay (@init V2.Timer)))) with true
    by reflexivity.
  cbn [option_map V2.t_period]. f_equal. apply Qc_is_canon. vm_compute. reflexivity.
Defined.

(** X9: Version 2: in every reachable state the tick is [-1] or lies in
    [[0, totalSubdivisions)], also when the total is not an integer. *)
Theorem V2_tick_in_measure (s : V2.St) : V2.reachable s -> V2.tick_in_measure s.
Proof. apply V2More.reachable_tick. Qed.

Lemma V2_tick_in_measure_witness :
  V2.reachable (V2.run [SelectSubdivision whole; SelectTimeSignature (mkTS 3 4); TogglePlay;
                        TimerFire] init) /\
  V2.tick_in_measure (V2.run [SelectSubdivision whole; SelectTimeSignature (mkTS 3 4); TogglePlay;
                              TimerFire] init) /\
  currentBeat (V2.run [SelectSubdivision whole; SelectTimeSignature (mkTS 3 4); TogglePlay;
                       TimerFire] init) = Qcmake (1 # 4) eq_refl.
Proof.
  assert (Hr : V2.reachable (V2.run [SelectSubdivision whole; SelectTimeSignature (mkTS 3 4);
                                     TogglePlay; TimerFire] init)).
  { simpl V2.run.
    apply (V2.reachable_step _ TimerFire); [| exact I].
    apply (V2.reachable_step _ TogglePlay); [| exact I].
    apply (V2.reachable_step _ (SelectTimeSignature (mkTS 3 4))).
    - apply (V2.reachable_step _ (SelectSubdivision whole)); [exact V2.reachable_init |].
      simpl. apply list_elem_of_In. simpl. tauto.
    - simpl. apply list_elem_of_In. simpl. tauto. }
  split; [exact Hr |]. split; [exact (V2_tick_in_measure _ Hr) |].
  apply Qc_is_canon. vm_compute. reflexivity.
Defined.

(** X10: Version 2: in every reachable state, a timer fire plays what the
    current state says: nothing when stopped; when playing, at tick
    [b = (currentBeat + 1) % totalSubdivisions], a click if the current
    subdivision's pattern sounds at [b], accented iff [b] is in the current
    accent set (so an accent toggled while running is heard). *)
Theorem V2_fire_plays_current_state (s : V2.St) :
  V2.reachable s ->
  V2.fireClick s =
    if isPlaying s then
      let b := nextBeat (currentBeat s) (s_totalSubdivisions s) in
      if getSubdivisionPattern (subdivision s) b (s_totalSubdivisions s)
      then Some (bool_decide (b ∈ accentSet s)) else None
    else None.
Proof.
  intros Hr. unfold V2.fireClick.
  rewrite (V2More.armed_sync s (proj1 (V2Facts.reachable_inv s Hr))).
  destruct (isPlaying s); reflexivity.
Qed.

Lemma V2_fire_plays_current_state_witness :
  V2.reachable (V2.handle (ToggleAccent (num_of_Z 1)) (V2.handle TogglePlay init)) /\
  V2.fireClick (V2.handle (ToggleAccent (num_of_Z 1)) (V2.handle TogglePlay init)) = Some true.
Proof.
  assert (Hr : V2.reachable (V2.handle (ToggleAccent (num_of_Z 1)) (V2.handle TogglePlay init))).
  { apply (V2.reachable_step _ (ToggleAccent (num_of_Z 1))).
    - apply (V2.reachable_step _ TogglePlay); [exact V2.reachable_init | exact I].
    - exists 1. split; [simpl; lia |]. apply Qc_is_canon. vm_compute. reflexivity. }
  split; [exact Hr |].
  rewrite (V2_fire_plays_current_state _ Hr). vm_compute. reflexivity.
Defined.

(** X11: Version 2: choosing a time signature or a subdivision while playing
    re-arms the timer from the new render, and its next fire shows tick 0. *)
Theorem V2_selection_restarts_measure (s : V2.St) sig sub :
  V2.reachable s -> isPlaying s = true ->
  let s1 := V2.handle (SelectTimeSignature sig) s in
  let s2 := V2.handle (SelectSubdivision sub) s in
  isPlaying s1 = true /\ intervalRef s1 = Some (V2.arm s1) /\
  currentBeat (V2.handle TimerFire s1) = num_of_Z 0 /\
  isPlaying s2 = true /\ intervalRef s2 = Some (V2.arm s2) /\
  currentBeat (V2.handle TimerFire s2) = num_of_Z 0.
Proof.
  intros Hr Hp. cbv zeta.
  pose proof (proj1 (V2Facts.reachable_inv s Hr)) as Harm.
  assert (Hgen : forall e, isPlaying (V2.handler e s) = true ->
            currentBeat (V2.handler e s) = num_of_Z (-1) ->
            isPlaying (V2.handle e s) = true /\ intervalRef (V2.handle e s) = Some (V2.arm (V2.handle e s)) /\
            currentBeat (V2.handle TimerFire (V2.handle e s)) = num_of_Z 0).
  { intros e Hp1 Hc1.
    destruct (V2Facts.runEffect_frame s (V2.handler e s)) as (_ & _ & _ & Hp2 & Hc2 & _).
    fold (V2.handle e s) in Hp2, Hc2. rewrite Hp1 in Hp2. rewrite Hc1 in Hc2.
    pose proof (V2Facts.handle_armed e s Harm) as Harm1.
    destruct Harm1 as [(Hf & _) | (_ & Hi)]; [congruence |].
    split; [exact Hp2 |]. split; [exact Hi |].
    unfold V2.handle at 1.
    destruct (V2Facts.runEffect_frame (V2.handle e s) (V2.handler TimerFire (V2.handle e s)))
      as (_ & _ & _ & _ & -> & _).
    unfold V2.handler, V2.timerFire. rewrite Hi. cbn [currentBeat set_currentBeat].
    rewrite Hc2. apply nextBeat_minus1. }
  destruct (selectTimeSignature_reset s sig) as (Hc1 & _ & _ & Hp1 & _).
  destruct (selectSubdivision_reset s sub) as (Hc2 & _ & _ & Hp2 & _).
  destruct (Hgen (SelectTimeSignature sig)) as (A & B & C); [simpl; congruence | exact Hc1 |].
  destruct (Hgen (SelectSubdivision sub)) as (D & E & F); [simpl; congruence | exact Hc2 |].
  auto.
Qed.

Lemma V2_selection_restarts_measure_witness :
  V2.reachable (V2.handle TogglePlay init) /\ isPlaying (V2.handle TogglePlay (@init V2.Timer)) = true /\
  currentBeat (V2.handle TimerFire (V2.handle (SelectTimeSignature (mkTS 3 4))
                                      (V2.handle TogglePlay init))) = num_of_Z 0.
Proof.
  assert (Hr : V2.reachable (V2.handle TogglePlay init))
    by (apply (V2.reachable_step _ TogglePlay); [exact V2.reachable_init | exact I]).
  assert (Hp : isPlaying (V2.handle TogglePlay (@init V2.Timer)) = true) by reflexivity.
  split; [exact Hr |]. split; [exact Hp |].
  exact (proj1 (proj2 (proj2 (V2_selection_restarts_measure _ (mkTS 3 4) quarter Hr Hp)))).
Defined.

(** X12: Version 2: the beat indicators.  In every reachable state, at tick
    [-1] no indicator is active; otherwise exactly one beat [i] in
    [[0, beatsPerMeasure)] is active, [floor(currentBeat / subdivisionsPerBeat)]. *)
Theorem V2_one_beat_indicator (s : V2.St) :
  V2.reachable s ->
  (currentBeat s = num_of_Z (-1) -> forall i, V2.beatActive s i = false) /\
  (currentBeat s <> num_of_Z (-1) ->
   exists i, 0 <= i < top (timeSignature s) /\ forall j, V2.beatActive s j = true <-> j = i).
Proof.
  intros Hr. pose proof (V2More.reachable_tick s Hr) as Htick.
  pose proof (TIME_SIGNATURES_pos _ (subdivision s) (V2More.v2_reachable_ts s Hr)) as [Hp _].
  unfold V2.beatActive. split.
  - intros Hc i. rewrite Hc.
    rewrite (bool_decide_false (Qcle _ _)); [apply andb_false_r |].
    vm_compute. intros H. apply H. reflexivity.
  - intros Hc. destruct Htick as [Hm1 | [H0 Hlt]]; [contradiction |].
    exists (Qfloor (this (Qcdiv (currentBeat s) (V2.s_subdivisionsPerBeat s)))).
    split.
    + unfold V2.s_subdivisionsPerBeat. unfold Qcle, Qclt, s_totalSubdivisions, totalSubdivisions in *.
      rewrite this_mult, !this_num_of_Z in Hlt. rewrite this_num_of_Z in H0, Hp.
      change (inject_Z 0) with 0%Q in H0, Hp.
      set (p := this (subdivisionsPerBeat (timeSignature s) (subdivision s))) in *.
      set (c := this (currentBeat s)) in *.
      rewrite (Qfloor_comp _ _ (this_div _ _)). fold p c.
      assert (Hq0 : (0 <= c / p)%Q) by (apply Qle_shift_div_l; lra).
      assert (Hq1 : (c / p < inject_Z (top (timeSignature s)))%Q) by (apply Qlt_shift_div_r; lra).
      pose proof (Qfloor_le (c / p)) as Hf1. pose proof (Qlt_floor (c / p)) as Hf2.
      set (f := Qfloor (c / p)) in *.
      assert (HA : (inject_Z 0 < inject_Z (f + 1))%Q) by (change (inject_Z 0) with 0%Q; lra).
      assert (HB : (inject_Z f < inject_Z (top (timeSignature s)))%Q) by lra.
      rewrite <- Zlt_Qlt in HA, HB. lia.
    + intros j. rewrite (bool_decide_true (Qcle _ _)) by exact H0.
      rewrite andb_true_r, bool_decide_eq_true. split; intros; congruence.
Qed.

Lemma V2_one_beat_indicator_witness :
  V2.reachable (V2.handle TogglePlay init) /\
  V2.beatActive (V2.handle TogglePlay init) 0 = true.
Proof.
  assert (Hr : V2.reachable (V2.handle TogglePlay init))
    by (apply (V2.reachable_step _ TogglePlay); [exact V2.reachable_init | exact I]).
  split; [exact Hr |].
  destruct (proj2 (V2_one_beat_indicator _ Hr)) as (i & _ & Hi).
  - intros H. apply (f_equal this) in H. vm_compute in H. discriminate.
  - vm_compute. reflexivity.
Defined.

(** X13: Version 2: when the subdivision's multiplier is below the time
    signature's bottom ([subdivisionsPerBeat < 1], e.g. whole or half notes
    in 4/4, quarter notes in 6/8), no beat indicator ever shows an accent,
    whatever the accent set: [Array.from({length: subdivisionsPerBeat})]
    is empty. *)
Theorem V2_short_beats_show_no_accent (s : V2.St) i :
  0 < bottom (timeSignature s) ->
  getSubdivisionMultiplier (subdivision s) < bottom (timeSignature s) ->
  V2.beatAccented s i = false.
Proof.
  intros Hb Hm.
  assert (H0 : 0 <= getSubdivisionMultiplier (subdivision s)) by (destruct (subdivision s); simpl; lia).
  unfold V2.beatAccented, V2.s_subdivisionsPerBeat, subdivisionsPerBeat.
  rewrite js_trunc_div_nonneg, Z.div_small by lia. reflexivity.
Qed.

Lemma V2_short_beats_show_no_accent_witness :
  let s := V2.handle (SelectSubdivision whole) (@init V2.Timer) in
  0 < bottom (timeSignature s) /\
  getSubdivisionMultiplier (subdivision s) < bottom (timeSignature s) /\
  num_of_Z 0 ∈ accentSet s /\ V2.beatAccented s 0 = false.
Proof.
  cbv zeta.
  assert (Hb : 0 < bottom (timeSignature (V2.handle (SelectSubdivision whole) (@init V2.Timer))))
    by (simpl; lia).
  assert (Hm : getSubdivisionMultiplier (subdivision (V2.handle (SelectSubdivision whole) (@init V2.Timer)))
                 < bottom (timeSignature (V2.handle (SelectSubdivision whole) (@init V2.Timer))))
    by (simpl; lia).
  split; [exact Hb |]. split; [exact Hm |]. split.
  - rewrite V2_accentSet_handle. simpl.
    destruct (selectSubdivision_reset (@init V2.Timer) whole) as (_ & -> & _). set_solver.
  - exact (V2_short_beats_show_no_accent _ 0 Hb Hm).
Defined.

(** X14: Version 2: pressing Start always plays a click, whatever the
    subdivision (every pattern sounds at tick 0), accented iff 0 is in the
    accent set. *)
Theorem V2_start_always_clicks (s : V2.St) :
  isPlaying s = false -> V2.startClick s = Some (bool_decide (num_of_Z 0 ∈ accentSet s)).
Proof. intros Hp. unfold V2.startClick. rewrite Hp, V2More.pattern_at_0. reflexivity. Qed.

Lemma V2_start_always_clicks_witness :
  isPlaying (V2.handle (SelectSubdivision sixteenth_sixteenth_eighth) (@init V2.Timer)) = false /\
  V2.startClick (V2.handle (SelectSubdivision sixteenth_sixteenth_eighth) (@init V2.Timer)) = Some true.
Proof.
  assert (Hp : isPlaying (V2.handle (SelectSubdivision sixteenth_sixteenth_eighth) (@init V2.Timer)) = false)
    by reflexivity.
  split; [exact Hp |]. rewrite (V2_start_always_clicks _ Hp). vm_compute. reflexivity.
Defined.

(** ** C5: what a timer fire does to the tick *)





